(** * Deceptinet: session engine, rate limiter and attack classifier

    A shallow embedding of the honeypot core
    ([backend/honeypots/ssh_honeypot.py], [backend/honeypots/http_honeypot.py])
    together with the properties stated about it.

    Python values are modelled as follows.
    - A [str] is a list of Unicode code points ([N]); a [bytes] value is a
      list of octets ([N] below 256).
    - A [dict] keyed by strings is a [gmap str _].
    - [datetime] values are integers counting microseconds, the resolution
      of [datetime]; [timedelta(seconds=n)] is [n * 1000000].
    - Calls that read the clock take the instant as an argument. *)

From Stdlib Require Import ZArith NArith List Ascii String Sorted.
From stdpp Require Import gmap list fin_maps.

Local Open Scope Z_scope.

(** ** Python strings *)

Module Py.

Definition char := N.
Abbreviation str := (list N).

(** A string literal of the source, as the list of its code points. *)
Definition lit (s : string) : str :=
  List.map N_of_ascii (list_ascii_of_string s).

(** [s.startswith(p)] *)
Fixpoint startswith (p s : str) : bool :=
  match p, s with
  | [], _ => true
  | _ :: _, [] => false
  | a :: p', b :: s' => if decide (a = b) then startswith p' s' else false
  end.

(** [s.rstrip(c)] for a one-character argument. *)
Fixpoint rstrip_char (c : char) (s : str) : str :=
  match s with
  | [] => []
  | a :: s' =>
      match rstrip_char c s' with
      | [] => if decide (a = c) then [] else [a]
      | t => a :: t
      end
  end.

(** [s.replace(old, new)] for a two-character [old] made of the same
    character twice and a one-character [new]: occurrences are replaced
    from the left and do not overlap. *)
Fixpoint replace_pair (c : char) (new : str) (s : str) : str :=
  match s with
  | a :: ((b :: s'') as s') =>
      if decide (a = c) then
        if decide (b = c) then new ++ replace_pair c new s''
        else a :: replace_pair c new s'
      else a :: replace_pair c new s'
  | _ => s
  end.

(** [sep.join(parts)] *)
Fixpoint join (sep : str) (parts : list str) : str :=
  match parts with
  | [] => []
  | [p] => p
  | p :: rest => p ++ sep ++ join sep rest
  end.

(** [Py_UNICODE_ISSPACE]: the characters [str.strip()], [str.split()] and
    the pattern class [\s] treat as white space. *)
Definition isspace (c : char) : bool :=
  ((9 <=? c) && (c <=? 13) || (28 <=? c) && (c <=? 32)
   || (c =? 133) || (c =? 160) || (c =? 5760)
   || (8192 <=? c) && (c <=? 8202)
   || (c =? 8232) || (c =? 8233) || (c =? 8239) || (c =? 8287)
   || (c =? 12288))%N.

(** [s.lstrip()], [s.rstrip()], [s.strip()] *)
Fixpoint lstrip (s : str) : str :=
  match s with
  | a :: s' => if isspace a then lstrip s' else s
  | [] => []
  end.

Fixpoint rstrip (s : str) : str :=
  match s with
  | [] => []
  | a :: s' =>
      match rstrip s' with
      | [] => if isspace a then [] else [a]
      | t => a :: t
      end
  end.

Definition strip (s : str) : str := rstrip (lstrip s).

(** [s.split()]: the maximal runs of characters that are not white space,
    in order.  [split_acc w s] carries the run being read in [w]. *)
Fixpoint split_acc (w : str) (s : str) : list str :=
  match s with
  | [] => match w with [] => [] | _ => [w] end
  | a :: s' =>
      if isspace a
      then match w with [] => split_acc [] s' | _ => w :: split_acc [] s' end
      else split_acc (w ++ [a]) s'
  end.

Definition split (s : str) : list str := split_acc [] s.

(** A word of a command line: not empty and free of white space. *)
Definition is_word (w : str) : bool :=
  match w with [] => false | _ => forallb (λ c, negb (isspace c)) w end.

End Py.

Import Py.

(** ** Rate limiter ([http_honeypot.py], class [RateLimiter]) *)

Module RateLimiter.

Record t := mk {
  max_requests : Z;
  window_seconds : Z;
  requests : gmap str (list Z);
}.

(** [RateLimiter(max_requests, window_seconds)] *)
Definition init (max_requests window_seconds : Z) : t :=
  mk max_requests window_seconds ∅.

(** [self.requests[ip]] on a [defaultdict(list)]: an absent key reads as
    the empty list. *)
Definition window (rl : t) (ip : str) : list Z :=
  default [] (requests rl !! ip).

(** [now - timedelta(seconds=self.window_seconds)] *)
Definition cutoff (rl : t) (now : Z) : Z := now - window_seconds rl * 1000000.

(** The comprehension [[t for t in self.requests[ip] if t > cutoff]]. *)
Definition prune (rl : t) (ip : str) (now : Z) : list Z :=
  List.filter (fun req_time => cutoff rl now <? req_time) (window rl ip).

Definition set_window (rl : t) (ip : str) (w : list Z) : t :=
  mk (max_requests rl) (window_seconds rl) (<[ip := w]> (requests rl)).

(** [is_rate_limited(ip)], the clock reading [now] made explicit. *)
Definition is_rate_limited (rl : t) (ip : str) (now : Z) : bool * t :=
  let kept := prune rl ip now in
  if max_requests rl <=? Z.of_nat (length kept)
  then (true, set_window rl ip kept)
  else (false, set_window rl ip (kept ++ [now])).

(** [get_request_count(ip)] *)
Definition get_request_count (rl : t) (ip : str) (now : Z) : Z * t :=
  let kept := prune rl ip now in
  (Z.of_nat (length kept), set_window rl ip kept).

Record stats := mk_stats {
  request_count : Z;
  limit : Z;
  stats_window_seconds : Z;
  stats_is_rate_limited : bool;
}.

(** [get_stats(ip)] *)
Definition get_stats (rl : t) (ip : str) (now : Z) : stats * t :=
  let '(count, rl') := get_request_count rl ip now in
  (mk_stats count (max_requests rl') (window_seconds rl')
     (max_requests rl' <=? count), rl').

End RateLimiter.

(** ** The emulated shell ([ssh_honeypot.py], class [FakeShell]) *)

Definition CR : char := 13%N.
Definition LF : char := 10%N.
Definition BS : char := 8%N.
Definition DEL : char := 127%N.
Definition ETX : char := 3%N.

(** A dict display [{k1: v1, k2: v2, ...}]: items are stored in order, a
    later item replacing an earlier one with the same key. *)
Definition dict {V} (items : list (str * V)) : gmap str V :=
  foldl (λ m kv, <[kv.1 := kv.2]> m) ∅ items.

Module FakeShell.

Record t := mk {
  username : str;
  hostname : str;
  cwd : str;
  filesystem : gmap str (list str);
  files : gmap str str;
}.

(** [FakeShell(username)] *)
Definition init (username : str) : t :=
  mk username (lit "ubuntu-server") (lit "/home/" ++ username)
    (dict
       [ (lit "/", [lit "bin"; lit "etc"; lit "home"; lit "var"; lit "usr"; lit "tmp"]);
         (lit "/home", [username; lit "admin"; lit "user"]);
         (lit "/home/" ++ username,
            [lit "documents"; lit "downloads"; lit ".bash_history"; lit ".ssh"]);
         (lit "/home/" ++ username ++ lit "/documents",
            [lit "passwords.txt"; lit "notes.txt"]);
         (lit "/etc", [lit "passwd"; lit "shadow"; lit "hosts"; lit "ssh"]);
         (lit "/var", [lit "log"; lit "www"]) ])
    (dict
       [ (lit "/etc/passwd",
            lit "root:x:0:0:root:/root:/bin/bash" ++ [LF]
            ++ lit "ubuntu:x:1000:1000::/home/ubuntu:/bin/bash" ++ [LF]);
         (lit "/etc/hosts",
            lit "127.0.0.1 localhost" ++ [LF]
            ++ lit "127.0.1.1 ubuntu-server" ++ [LF]);
         (lit "/home/" ++ username ++ lit "/.bash_history",
            lit "ls -la" ++ [LF] ++ lit "cd documents" ++ [LF]
            ++ lit "cat passwords.txt" ++ [LF] ++ lit "exit" ++ [LF]);
         (lit "/home/" ++ username ++ lit "/documents/passwords.txt",
            lit "mysql_password: notreal123" ++ [LF]
            ++ lit "ssh_key_pass: fake_password" ++ [LF]) ]).

Definition set_cwd (sh : t) (d : str) : t :=
  mk (username sh) (hostname sh) d (filesystem sh) (files sh).

(** [get_prompt()] *)
Definition get_prompt (sh : t) : str :=
  username sh ++ lit "@" ++ hostname sh ++ lit ":" ++ cwd sh ++ lit "$ ".

(** [_cmd_ls(args)] *)
Definition _cmd_ls (sh : t) (args : list str) : str :=
  let path :=
    match args with
    | a :: _ =>
        if negb (startswith (lit "-") a)
        then (if startswith (lit "/") a then a else cwd sh ++ lit "/" ++ a)
        else cwd sh
    | [] => cwd sh
    end in
  let path := rstrip_char 47%N path in
  let path := if path is [] then lit "/" else path in
  match filesystem sh !! path with
  | Some names => join (lit "  ") names
  | None =>
      lit "ls: cannot access '" ++ path ++ lit "': No such file or directory"
  end.

(** [_cmd_cat(args)] *)
Definition _cmd_cat (sh : t) (args : list str) : str :=
  match args with
  | [] => lit "cat: missing file operand"
  | a :: _ =>
      let filepath := if startswith (lit "/") a then a else cwd sh ++ lit "/" ++ a in
      match files sh !! filepath with
      | Some content => content
      | None => lit "cat: " ++ a ++ lit ": No such file or directory"
      end
  end.

(** [_cmd_uname(args)] *)
Definition _cmd_uname (args : list str) : str :=
  if bool_decide (lit "-a" ∈ args)
  then lit "Linux ubuntu-server 5.15.0-56-generic #62-Ubuntu SMP x86_64 GNU/Linux"
  else lit "Linux".

(** [_cmd_cd(args)]: the returned text and the shell afterwards. *)
Definition _cmd_cd (sh : t) (args : list str) : str * t :=
  match args with
  | [] => ([], set_cwd sh (lit "/home/" ++ username sh))
  | new_path :: _ =>
      let target :=
        if startswith (lit "/") new_path then new_path
        else replace_pair 47%N (lit "/") (cwd sh ++ lit "/" ++ new_path) in
      if bool_decide (is_Some (filesystem sh !! target))
         || startswith (lit "/home/") target
      then ([], set_cwd sh target)
      else (lit "bash: cd: " ++ new_path ++ lit ": No such file or directory", sh)
  end.

(** The chain of comparisons on the command name in [execute_command]:
    [None] is the signal to close the session. *)
Definition dispatch (sh : t) (command : str) (args : list str) : option str * t :=
  if decide (command = lit "ls") then (Some (_cmd_ls sh args), sh)
  else if decide (command = lit "pwd") then (Some (cwd sh), sh)
  else if decide (command = lit "whoami") then (Some (username sh), sh)
  else if decide (command = lit "cat") then (Some (_cmd_cat sh args), sh)
  else if decide (command = lit "uname") then (Some (_cmd_uname args), sh)
  else if decide (command = lit "cd") then
    let '(out, sh') := _cmd_cd sh args in (Some out, sh')
  else if decide (command = lit "help") then
    (Some (lit "Available commands: ls, pwd, whoami, cat, uname, cd, exit"), sh)
  else if decide (command = lit "exit") then (None, sh)
  else (Some (lit "-bash: " ++ command ++ lit ": command not found"), sh).

(** [execute_command(cmd)] *)
Definition execute_command (sh : t) (cmd : str) : option str * t :=
  let cmd := strip cmd in
  if cmd is [] then (Some [], sh) else
  match split cmd with
  | command :: args => dispatch sh command args
  | [] => (Some [], sh)   (* not reached: a stripped non-empty line has a word *)
  end.

End FakeShell.

(** ** [bytes.decode('utf-8', errors='ignore')]

    The decoder of CPython: a well-formed sequence yields its code point;
    on an ill-formed one the offending bytes are dropped and decoding
    resumes after them.  A lead byte that cannot start a sequence is
    dropped alone; when a continuation byte is wrong the bytes before it
    are dropped and decoding resumes at it; a sequence cut short by the
    end of the data is dropped whole. *)

Definition is_continuation (b : N) : bool := ((128 <=? b) && (b <=? 191))%N.

Fixpoint decode_utf8_ignore (data : list N) : str :=
  match data with
  | [] => []
  | b0 :: r0 =>
      if (b0 <? 128)%N then b0 :: decode_utf8_ignore r0
      else if (b0 <? 194)%N then decode_utf8_ignore r0
      else if (b0 <? 224)%N then
        match r0 with
        | [] => []
        | b1 :: r1 =>
            if is_continuation b1
            then ((b0 - 192) * 64 + (b1 - 128))%N :: decode_utf8_ignore r1
            else decode_utf8_ignore r0
        end
      else if (b0 <? 240)%N then
        match r0 with
        | [] => []
        | b1 :: r1 =>
            if negb (is_continuation b1)
               || (if (b1 <? 160)%N then (b0 =? 224)%N else (b0 =? 237)%N)
            then decode_utf8_ignore r0
            else
              match r1 with
              | [] => []
              | b2 :: r2 =>
                  if is_continuation b2
                  then ((b0 - 224) * 4096 + (b1 - 128) * 64 + (b2 - 128))%N
                       :: decode_utf8_ignore r2
                  else decode_utf8_ignore r1
              end
        end
      else if (b0 <? 245)%N then
        match r0 with
        | [] => []
        | b1 :: r1 =>
            if negb (is_continuation b1)
               || (if (b1 <? 144)%N then (b0 =? 240)%N else (b0 =? 244)%N)
            then decode_utf8_ignore r0
            else
              match r1 with
              | [] => []
              | b2 :: r2 =>
                  if negb (is_continuation b2) then decode_utf8_ignore r1
                  else
                    match r2 with
                    | [] => []
                    | b3 :: r3 =>
                        if is_continuation b3
                        then ((b0 - 240) * 262144 + (b1 - 128) * 4096
                              + (b2 - 128) * 64 + (b3 - 128))%N
                             :: decode_utf8_ignore r3
                        else decode_utf8_ignore r2
                    end
              end
        end
      else decode_utf8_ignore r0
  end.

(** ** The interactive session ([ssh_honeypot.py], [handle_client]) *)

(** The channel as the session sees it.  [sent] is what has been written
    to the peer, [closed] whether [channel.close()] has been called.
    [link] says how long the peer stays: [None] when it stays, [Some k]
    when it is gone once [k] more writes have succeeded, after which
    [channel.send] raises and [channel.active] reads false. *)
Module Channel.

Record t := mk {
  sent : list str;
  closed : bool;
  link : option nat;
}.

(** [channel.send(text)]: [None] stands for the raised [socket.error]. *)
Definition send (text : str) (ch : t) : option t :=
  match link ch with
  | Some O => None
  | Some (S k) => Some (mk (sent ch ++ [text]) (closed ch) (Some k))
  | None => Some (mk (sent ch ++ [text]) (closed ch) None)
  end.

(** [channel.close()] *)
Definition close (ch : t) : t := mk (sent ch) true (link ch).

(** [channel.active] *)
Definition active (ch : t) : bool :=
  negb (closed ch) && (if link ch is Some _ then false else true).

End Channel.

Module Session.

(** The local variables of [handle_client] during the interaction loop. *)
Record t := mk {
  shell : FakeShell.t;
  commands : list str;
  buffer : str;
  channel : Channel.t;
}.

(** How the body of a loop ends: it falls through to the next round, it
    leaves the loop by [break], or an exception propagates. *)
Inductive flow :=
  | Next (s : t)
  | Break (s : t)
  | Raise (s : t).

(** [channel.send(text)] followed by the rest of the block. *)
Definition send (text : str) (s : t) (rest : t → flow) : flow :=
  match Channel.send text (channel s) with
  | Some ch => rest (mk (shell s) (commands s) (buffer s) ch)
  | None => Raise s
  end.

Definition set_buffer (s : t) (b : str) : t :=
  mk (shell s) (commands s) b (channel s).

(** The body of [for char in data]. *)
Definition on_char (c : char) (s : t) : flow :=
  if decide (c = CR ∨ c = LF) then
    if strip (buffer s) is [] then
      send (FakeShell.get_prompt (shell s)) s Next
    else
      let '(result, sh) := FakeShell.execute_command (shell s) (buffer s) in
      let s := mk sh (commands s ++ [strip (buffer s)]) (buffer s) (channel s) in
      match result with
      | None =>
          send ([CR; LF] ++ lit "Logout" ++ [CR; LF]) s (λ s,
          Break (mk (shell s) (commands s) (buffer s) (Channel.close (channel s))))
      | Some result =>
          let prompt s := send (FakeShell.get_prompt (shell s)) s (λ s,
                          Next (set_buffer s [])) in
          if result is [] then prompt s
          else send ([CR; LF] ++ result ++ [CR; LF]) s prompt
      end
  else if decide (c = DEL) then
    if buffer s is [] then Next s
    else send [BS; 32%N; BS] (set_buffer s (removelast (buffer s))) Next
  else if decide (c = ETX) then
    send (lit "^C" ++ [CR; LF]) s (λ s,
    send (FakeShell.get_prompt (shell s)) s (λ s,
    Next (set_buffer s [])))
  else
    send [c] (set_buffer s (buffer s ++ [c])) Next.

(** [for char in data: ...] *)
Fixpoint for_chars (data : str) (s : t) : flow :=
  match data with
  | [] => Next s
  | c :: data' =>
      match on_char c s with
      | Next s' => for_chars data' s'
      | stop => stop
      end
  end.

(** One round of [while True] as the peer drives it: [incoming] is the
    data waiting at [channel.recv_ready()], if any, and [link] how long
    the peer stays during the round (see [Channel.t]). *)
Record round := mk_round {
  incoming : option (list N);
  link : option nat;
}.

(** How the loop ends: by [break]; by an exception; or, when the rounds
    given are used up, not yet. *)
Inductive loop_end :=
  | Finished (s : t)
  | Raised (s : t)
  | Pending (s : t).

(** [while True: ...] *)
Fixpoint interact (rounds : list round) (s : t) : loop_end :=
  match rounds with
  | [] => Pending s
  | r :: rounds' =>
      let ch := Channel.mk (Channel.sent (channel s)) (Channel.closed (channel s))
                  (link r) in
      let s := mk (shell s) (commands s) (buffer s) ch in
      let body :=
        match incoming r with
        | Some data => for_chars (decode_utf8_ignore data) s
        | None => Next s
        end in
      match body with
      | Raise s' => Raised s'
      | Next s' | Break s' =>
          if Channel.active (channel s') then interact rounds' s' else Finished s'
      end
  end.

(** An entry written by [SessionLogger.log_session]; the two clock
    readings of the entry (time stamp and duration) are left out. *)
Record session_entry := mk_entry {
  entry_ip : str;
  entry_username : str;
  entry_commands : list str;
}.

(** What [handle_client] leaves behind: whether the connection is over,
    the entries it logged, and its variables at that point. *)
Record outcome := mk_outcome {
  over : bool;
  logged : list session_entry;
  last : loop_end;
}.

(** [handle_client], from the moment the channel is accepted.  The banner
    and the first prompt are written while the peer is there. *)
Definition handle_client (ip username : str) (rounds : list round) : outcome :=
  let shell := FakeShell.init username in
  let ch := Channel.mk
              [lit "Welcome to Ubuntu 22.04.1 LTS" ++ [CR; LF; CR; LF];
               FakeShell.get_prompt shell] false None in
  let e := interact rounds (mk shell [] [] ch) in
  match e with
  | Finished s => mk_outcome true [mk_entry ip username (commands s)] e
  | Raised s => mk_outcome true [] e
  | Pending s => mk_outcome false [] e
  end.

End Session.

(** ** Regular expressions ([re.search(pattern, text, re.IGNORECASE)])

    Only the truth value of [re.search] is used by the detector, so a
    pattern is modelled by the set of places where a match starting at a
    given place can end; whether a repetition is greedy or lazy has no
    bearing on that set, and groups capture nothing that is read back. *)

Module Re.

Inductive re :=
  | Empty
  | Lit (c : char)
  | Dot
  | Class (negate : bool) (items : list (char * char))
  | Space
  | Boundary
  | Cat (r1 r2 : re)
  | Or (r1 r2 : re)
  | Star (r : re)
  | Plus (r : re)
  | Opt (r : re).

(** *** Reading a pattern

    The part of the pattern syntax that the rule table uses: literals,
    [.], classes with ranges and negation, the escapes [\b] and [\s] and
    escaped punctuation, groups, alternation and the repetitions [*], [+],
    [?] with their lazy forms.  Anything else is refused ([None]). *)

Definition is_ascii_letter (c : char) : bool :=
  ((65 <=? c) && (c <=? 90) || (97 <=? c) && (c <=? 122))%N.

Definition is_ascii_digit (c : char) : bool := ((48 <=? c) && (c <=? 57))%N.

Definition is_special (c : char) : bool :=
  bool_decide (c ∈ lit "()[]|*+?.\^${}").

(** An escape [\e] outside the two classes handled apart. *)
Definition escaped_literal (e : char) : option char :=
  if is_ascii_letter e || is_ascii_digit e || (128 <=? e)%N then None else Some e.

Fixpoint parse_class_items (fuel : nat) (s : str) : option (list (char * char) * str) :=
  match fuel with
  | O => None
  | S fuel =>
      match s with
      | [] => None
      | 93%N :: s' => Some ([], s')
      | c :: s' =>
          first ← (if decide (c = 92%N)
                   then match s' with
                        | e :: s'' => lo ← escaped_literal e; Some (lo, s'')
                        | [] => None
                        end
                   else if (128 <=? c)%N then None else Some (c, s'));
          let '(lo, s1) := first in
          match s1 with
          | 45%N :: hi :: s2 =>
              if decide (hi = 93%N)
              then rest ← parse_class_items fuel s1; Some ((lo, lo) :: rest.1, rest.2)
              else if bool_decide (hi = 92%N) || (128 <=? hi)%N then None
              else rest ← parse_class_items fuel s2; Some ((lo, hi) :: rest.1, rest.2)
          | _ => rest ← parse_class_items fuel s1; Some ((lo, lo) :: rest.1, rest.2)
          end
      end
  end.

Definition parse_class (s : str) : option (re * str) :=
  match s with
  | 94%N :: s' =>
      r ← parse_class_items (S (length s')) s'; Some (Class true r.1, r.2)
  | _ => r ← parse_class_items (S (length s)) s; Some (Class false r.1, r.2)
  end.

Definition parse_repeat (a : re) (s : str) : re * str :=
  match s with
  | 42%N :: 63%N :: s' | 42%N :: s' => (Star a, s')
  | 43%N :: 63%N :: s' | 43%N :: s' => (Plus a, s')
  | 63%N :: 63%N :: s' | 63%N :: s' => (Opt a, s')
  | _ => (a, s)
  end.

Fixpoint parse_alt (fuel : nat) (s : str) : option (re * str) :=
  match fuel with
  | O => None
  | S fuel =>
      branch ← parse_seq fuel s;
      match branch.2 with
      | 124%N :: s2 => rest ← parse_alt fuel s2; Some (Or branch.1 rest.1, rest.2)
      | _ => Some branch
      end
  end
with parse_seq (fuel : nat) (s : str) : option (re * str) :=
  match fuel with
  | O => None
  | S fuel =>
      match s with
      | [] => Some (Empty, [])
      | c :: _ =>
          if decide (c = 41%N ∨ c = 124%N) then Some (Empty, s)
          else
            atom ← parse_atom fuel s;
            let '(item, s2) := parse_repeat atom.1 atom.2 in
            rest ← parse_seq fuel s2;
            Some (Cat item rest.1, rest.2)
      end
  end
with parse_atom (fuel : nat) (s : str) : option (re * str) :=
  match fuel with
  | O => None
  | S fuel =>
      match s with
      | [] => None
      | 40%N :: s' =>
          match s' with
          | 63%N :: _ => None
          | _ =>
              inner ← parse_alt fuel s';
              match inner.2 with
              | 41%N :: s2 => Some (inner.1, s2)
              | _ => None
              end
          end
      | 91%N :: s' => parse_class s'
      | 46%N :: s' => Some (Dot, s')
      | 92%N :: e :: s' =>
          if decide (e = 98%N) then Some (Boundary, s')
          else if decide (e = 115%N) then Some (Space, s')
          else c ← escaped_literal e; Some (Lit c, s')
      | c :: s' =>
          if is_special c || (128 <=? c)%N then None else Some (Lit c, s')
      end
  end.

(** [re.compile(pattern)]; [None] stands for the raised [re.error]. *)
Definition compile (pattern : str) : option re :=
  r ← parse_alt (3 * length pattern + 3) pattern;
  if r.2 is [] then Some r.1 else None.

(** *** Matching *)

Section Matching.

(** Three tables of the Unicode database, used for characters outside
    ASCII only: the simple lower-case mapping ([Py_UNICODE_TOLOWER]), the
    alphanumeric property ([Py_UNICODE_ISALNUM]) and the full lower-case
    mapping that [str.lower] applies to the character at a given index
    of a string ([lower_ucs4]). *)
Variable unicode_tolower : char → char.
Variable unicode_isalnum : char → bool.
Variable unicode_lower_ucs4 : str → nat → char → str.

Definition ascii_lower (c : char) : char :=
  if ((65 <=? c) && (c <=? 90))%N then (c + 32)%N else c.

(** [sre_lower_unicode] *)
Definition sre_lower (c : char) : char :=
  if (c <? 128)%N then ascii_lower c else unicode_tolower c.

(** The other lower-case letters that match an ASCII letter when case is
    ignored ([_ignorecase_fixes]): dotless i for [i], long s for [s]. *)
Definition fixes (lo : char) : list char :=
  if decide (lo = 105%N) then [305%N]
  else if decide (lo = 115%N) then [383%N] else [].

(** A literal of the pattern against a character of the text. *)
Definition lit_match (p x : char) : bool :=
  if is_ascii_letter p
  then bool_decide (sre_lower x ∈ ascii_lower p :: fixes (ascii_lower p))
  else bool_decide (x = p).

Definition range_chars (lo hi : char) : list char :=
  List.map N.of_nat (seq (N.to_nat lo) (S (N.to_nat hi) - N.to_nat lo)).

(** A class against a character: the items are lower-cased, and so is the
    character when some item is a letter. *)
Definition class_match (negate : bool) (items : list (char * char)) (x : char) : bool :=
  let members := flat_map (λ it, range_chars it.1 it.2) items in
  let x' := if existsb is_ascii_letter members then sre_lower x else x in
  let hit := existsb (λ i, bool_decide (x' ∈ ascii_lower i :: fixes (ascii_lower i)))
               members in
  if negate then negb hit else hit.

(** [SRE_UNI_IS_WORD] *)
Definition is_word_char (c : char) : bool :=
  if (c <? 128)%N then is_ascii_letter c || is_ascii_digit c || bool_decide (c = 95%N)
  else unicode_isalnum c.

(** A place in the text: the character before it, if any, and the text
    from it on. *)
Definition place : Type := option char * str.

Definition at_boundary (pl : place) : bool :=
  xorb (from_option is_word_char false pl.1)
       (from_option is_word_char false (head pl.2)).

Definition one (ok : char → bool) (pl : place) : list place :=
  match pl.2 with
  | x :: rest => if ok x then [(Some x, rest)] else []
  | [] => []
  end.

(** Zero or more rounds of [step]; a round that consumes nothing leads
    nowhere new and is not followed. *)
Fixpoint rounds (step : place → list place) (fuel : nat) (pl : place) : list place :=
  match fuel with
  | O => [pl]
  | S fuel =>
      pl :: flat_map (λ pl', if (length pl'.2 <? length pl.2)%nat
                             then rounds step fuel pl' else [])
              (step pl)
  end.

(** The places where a match of [r] that starts at [pl] can end. *)
Fixpoint ends (r : re) (pl : place) : list place :=
  match r with
  | Empty => [pl]
  | Lit c => one (lit_match c) pl
  | Dot => one (λ x, negb (bool_decide (x = LF))) pl
  | Class negate items => one (class_match negate items) pl
  | Space => one isspace pl
  | Boundary => if at_boundary pl then [pl] else []
  | Cat r1 r2 => flat_map (ends r2) (ends r1 pl)
  | Or r1 r2 => ends r1 pl ++ ends r2 pl
  | Star r => rounds (ends r) (length pl.2) pl
  | Plus r => flat_map (λ pl', rounds (ends r) (length pl'.2) pl') (ends r pl)
  | Opt r => pl :: ends r pl
  end.

Fixpoint search_from (r : re) (prev : option char) (text : str) : bool :=
  match ends r (prev, text) with
  | _ :: _ => true
  | [] =>
      match text with
      | x :: text' => search_from r (Some x) text'
      | [] => false
      end
  end.

(** The truth value of [re.search(pattern, text, re.IGNORECASE)]. *)
Definition search (pattern text : str) : option bool :=
  r ← compile pattern; Some (search_from r None text).

(** [text.lower()] *)
Definition lower (text : str) : str :=
  List.concat
    (imap (λ i c, if (c <? 128)%N then [ascii_lower c]
                  else unicode_lower_ucs4 text i c) text).

End Matching.

End Re.

(** ** Attack detector ([http_honeypot.py], class [AttackDetector]) *)

Module AttackDetector.

(** The double quote, which the patterns below contain. *)
Definition dq : str := [34%N].

Definition SQL_PATTERNS : list str :=
  [ lit "(\bunion\b.*\bselect\b)";
    lit "(\bor\b\s+['\" ++ dq ++ lit "]?1['\" ++ dq ++ lit "]?\s*=\s*['\"
      ++ dq ++ lit "]?1)";
    lit "(\bor\b\s+['\" ++ dq ++ lit "]?true['\" ++ dq ++ lit "]?)";
    lit "(;.*drop\s+table)";
    lit "(;.*delete\s+from)";
    lit "(;.*insert\s+into)";
    lit "(;.*update\s+.*set)";
    lit "('|\" ++ dq ++ lit ")(\s*)(or|and)(\s*)('|\" ++ dq ++ lit "|1|true)";
    lit "(exec\s*\()";
    lit "(execute\s+immediate)";
    lit "(benchmark\s*\()";
    lit "(sleep\s*\()";
    lit "(waitfor\s+delay)";
    lit "(--|\#|\/\*)";
    lit "(char\s*\()";
    lit "(concat\s*\()";
    lit "(0x[0-9a-f]+)" ].

Definition XSS_PATTERNS : list str :=
  [ lit "(<script[^>]*>.*?</script>)";
    lit "(<script[^>]*>)";
    lit "(javascript:)";
    lit "(onerror\s*=)";
    lit "(onload\s*=)";
    lit "(onclick\s*=)";
    lit "(onmouseover\s*=)";
    lit "(<iframe[^>]*>)";
    lit "(<object[^>]*>)";
    lit "(<embed[^>]*>)";
    lit "(<img[^>]*onerror)";
    lit "(<svg[^>]*onload)";
    lit "(eval\s*\()";
    lit "(alert\s*\()";
    lit "(prompt\s*\()";
    lit "(confirm\s*\()";
    lit "(document\.cookie)";
    lit "(document\.write)" ].

Definition PATH_TRAVERSAL_PATTERNS : list str :=
  [ lit "(\.\.\/|\.\.\\)";
    lit "(%2e%2e%2f|%2e%2e/|..%2f|%2e%2e%5c)";
    lit "(\/etc\/passwd)";
    lit "(\/windows\/system32)" ].

Definition COMMAND_INJECTION_PATTERNS : list str :=
  [ lit "(;\s*ls\s)";
    lit "(;\s*cat\s)";
    lit "(;\s*wget\s)";
    lit "(;\s*curl\s)";
    lit "(\|\s*nc\s)";
    lit "(\&\&\s*id)";
    lit "(`.*`)";
    lit "(\$\(.*\))" ].

Record analysis := mk_analysis {
  is_malicious : bool;
  attack_types : list str;
  patterns_detected : list str;
}.

Section Detectors.

Variable unicode_tolower : char → char.
Variable unicode_isalnum : char → bool.
Variable unicode_lower_ucs4 : str → nat → char → str.

(** The loop shared by the four detectors: every pattern that is found
    in [text] is reported under [label], in table order. *)
Fixpoint detect (label : str) (patterns : list str) (text : str) : option (list str) :=
  match patterns with
  | [] => Some []
  | pattern :: patterns' =>
      found ← Re.search unicode_tolower unicode_isalnum pattern text;
      rest ← detect label patterns' text;
      Some (if found : bool then (label ++ lit ": " ++ pattern) :: rest else rest)
  end.

Definition detect_sql_injection (text : str) : option (list str) :=
  detect (lit "SQL_INJECTION") SQL_PATTERNS (Re.lower unicode_lower_ucs4 text).

Definition detect_xss (text : str) : option (list str) :=
  detect (lit "XSS") XSS_PATTERNS (Re.lower unicode_lower_ucs4 text).

Definition detect_path_traversal (text : str) : option (list str) :=
  detect (lit "PATH_TRAVERSAL") PATH_TRAVERSAL_PATTERNS text.

Definition detect_command_injection (text : str) : option (list str) :=
  detect (lit "COMMAND_INJECTION") COMMAND_INJECTION_PATTERNS text.

(** [analyze_payload(text)] *)
Definition analyze_payload (text : str) : option analysis :=
  sql_detections ← detect_sql_injection text;
  xss_detections ← detect_xss text;
  path_detections ← detect_path_traversal text;
  cmd_detections ← detect_command_injection text;
  let all_detections :=
    sql_detections ++ xss_detections ++ path_detections ++ cmd_detections in
  Some
    (if all_detections is [] then mk_analysis false [] []
     else mk_analysis true
            ((if sql_detections is [] then [] else [lit "SQL_INJECTION"])
             ++ (if xss_detections is [] then [] else [lit "XSS"])
             ++ (if path_detections is [] then [] else [lit "PATH_TRAVERSAL"])
             ++ (if cmd_detections is [] then [] else [lit "COMMAND_INJECTION"]))
            all_detections).

End Detectors.

End AttackDetector.

(** Drivers for the scenarios stated about the limiter: [attempts] calls
    [is_rate_limited] once per instant of [ts], in order, and collects the
    answers; [snapshots n] calls [get_stats] [n] times at one instant. *)
Fixpoint attempts (rl : RateLimiter.t) (ip : str) (ts : list Z)
  : list bool * RateLimiter.t :=
  match ts with
  | [] => ([], rl)
  | t :: ts' =>
      let '(b, rl1) := RateLimiter.is_rate_limited rl ip t in
      let '(bs, rl2) := attempts rl1 ip ts' in
      (b :: bs, rl2)
  end.

Fixpoint snapshots (n : nat) (rl : RateLimiter.t) (ip : str) (now : Z)
  : list RateLimiter.stats * RateLimiter.t :=
  match n with
  | O => ([], rl)
  | S n' =>
      let '(s, rl1) := RateLimiter.get_stats rl ip now in
      let '(ss, rl2) := snapshots n' rl1 ip now in
      (s :: ss, rl2)
  end.

(** * More of the code

    The rest of the two honeypots that can be said in the same terms:
    the helpers and the login route of [http_honeypot.py], and drivers
    that run the shell, the limiter and the login route over sequences
    of inputs. *)

(** [s.split(sep)] for a one-character separator: the pieces between
    separators, empty ones included; never an empty list. *)
Fixpoint split_on (sep : char) (s : str) : list str :=
  match s with
  | [] => [[]]
  | a :: s' =>
      if decide (a = sep) then [] :: split_on sep s'
      else match split_on sep s' with
           | w :: ws => (a :: w) :: ws
           | [] => [[a]]
           end
  end.

(** [needle in hay] *)
Fixpoint contains (needle hay : str) : bool :=
  startswith needle hay
  || match hay with
     | [] => false
     | _ :: hay' => contains needle hay'
     end.

(** ** Web front ([http_honeypot.py]) *)

Module Http.

(** What the routes read of a request: the header lines as the server
    hands them over, names in lower case, and the peer's address when it
    is known. *)
Record request := mk_request {
  headers : list (str * str);
  client : option str;
}.

(** [request.headers.get(key)]: the first line with that name, compared
    in lower case. *)
Definition header (req : request) (key : str) : option str :=
  snd <$> List.find (λ kv, bool_decide (kv.1 = List.map Re.ascii_lower key))
            (headers req).

(** [get_client_ip(request)] *)
Definition get_client_ip (req : request) : str :=
  match header req (lit "X-Forwarded-For") with
  | Some ((_ :: _) as forwarded) => strip (hd [] (split_on 44%N forwarded))
  | _ =>
      match header req (lit "X-Real-IP") with
      | Some ((_ :: _) as real_ip) => real_ip
      | _ => match client req with Some host => host | None => lit "unknown" end
      end
  end.

Record ua_analysis := mk_ua {
  raw : str;
  is_suspicious : bool;
  indicators : list str;
}.

Definition suspicious_keywords : list str :=
  [ lit "sqlmap"; lit "nikto"; lit "nmap"; lit "masscan"; lit "nessus";
    lit "burpsuite"; lit "metasploit"; lit "havij"; lit "acunetix";
    lit "w3af"; lit "webscarab"; lit "python-requests"; lit "curl";
    lit "wget"; lit "scanner"; lit "bot" ].

(** The events that the login route writes with [EventLogger.log_event];
    the time stamp of an event is left out, and the write to the log
    file is taken to succeed. *)
Inductive event :=
  | RateLimitExceeded (ip user_agent : str) (stats : RateLimiter.stats)
  | LoginAttempt (ip username password user_agent : str)
      (username_analysis password_analysis : AttackDetector.analysis)
      (overall_malicious : bool) (rate_limit : RateLimiter.stats)
      (credential_hash : str).

(** What a route answers: the [HTTPException] it raises, or a failure
    inside the handler. *)
Inductive response :=
  | Rejected (status_code : Z) (detail : str)
  | ServerError.

Section WithUnicode.

Variable unicode_tolower : char → char.
Variable unicode_isalnum : char → bool.
Variable unicode_lower_ucs4 : str → nat → char → str.
(** [hashlib.md5(text.encode()).hexdigest()] *)
Variable md5_hexdigest : str → str.

(** [analyze_user_agent(user_agent)] *)
Definition analyze_user_agent (user_agent : str) : ua_analysis :=
  let ua_lower := Re.lower unicode_lower_ucs4 user_agent in
  let hits := List.filter (λ keyword, contains keyword ua_lower) suspicious_keywords in
  let analysis :=
    mk_ua user_agent (if hits is [] then false else true)
      (List.map (λ keyword, lit "Contains '" ++ keyword ++ lit "'") hits) in
  if (length user_agent <? 10)%nat
  then mk_ua (raw analysis) true (indicators analysis ++ [lit "Suspiciously short"])
  else analysis.

(** [admin_login_post(request, username, password)] on the limiter and
    the event log; [now1] and [now2] are the clock readings of
    [get_stats] and of [is_rate_limited].  The line written to the
    console, the only reader of [analyze_user_agent] here, and the pause
    before the answer leave no trace in either. *)
Definition admin_login_post
    (req : request) (username password : str) (now1 now2 : Z)
    (rate_limiter : RateLimiter.t) (events : list event)
  : response * RateLimiter.t * list event :=
  let ip := get_client_ip req in
  let user_agent := default (lit "Unknown") (header req (lit "User-Agent")) in
  let '(rate_limit_info, rl1) := RateLimiter.get_stats rate_limiter ip now1 in
  let '(limited, rl2) := RateLimiter.is_rate_limited rl1 ip now2 in
  if limited then
    (Rejected 429 (lit "Too many requests. Please try again later."), rl2,
     events ++ [RateLimitExceeded ip user_agent rate_limit_info])
  else
    match AttackDetector.analyze_payload unicode_tolower unicode_isalnum
            unicode_lower_ucs4 username,
          AttackDetector.analyze_payload unicode_tolower unicode_isalnum
            unicode_lower_ucs4 password with
    | Some username_analysis, Some password_analysis =>
        let overall :=
          AttackDetector.is_malicious username_analysis
          || AttackDetector.is_malicious password_analysis in
        (Rejected 401 (lit "Invalid username or password"), rl2,
         events ++ [LoginAttempt ip username password user_agent
                      username_analysis password_analysis overall
                      rate_limit_info
                      (md5_hexdigest (username ++ lit ":" ++ password))])
    | _, _ => (ServerError, rl2, events)
    end.

End WithUnicode.

End Http.

(** [rate_limiter = RateLimiter(max_requests=20, window_seconds=60)] *)
Definition rate_limiter : RateLimiter.t := RateLimiter.init 20 60.

(** ** Runs and the notions used to state what they keep *)

(** A run of command lines through one shell, in order. *)
Definition run_commands (sh : FakeShell.t) (lines : list str) : FakeShell.t :=
  foldl (λ sh line, snd (FakeShell.execute_command sh line)) sh lines.

(** A string of white space only. *)
Definition blank (s : str) : Prop := Forall (λ c, isspace c = true) s.

(** What holds of a shell all along a session. *)
Definition shell_inv (username : str) (sh : FakeShell.t) : Prop :=
  FakeShell.username sh = username
  ∧ FakeShell.hostname sh = FakeShell.hostname (FakeShell.init username)
  ∧ FakeShell.filesystem sh = FakeShell.filesystem (FakeShell.init username)
  ∧ FakeShell.files sh = FakeShell.files (FakeShell.init username)
  ∧ startswith (lit "/") (FakeShell.cwd sh) = true
  ∧ (is_Some (FakeShell.filesystem sh !! FakeShell.cwd sh)
     ∨ startswith (lit "/home/") (FakeShell.cwd sh) = true).

(** The variables a loop body or the loop leaves behind. *)
Definition flow_state (o : Session.flow) : Session.t :=
  match o with Session.Next s | Session.Break s | Session.Raise s => s end.

Definition end_state (e : Session.loop_end) : Session.t :=
  match e with Session.Finished s | Session.Raised s | Session.Pending s => s end.

(** A line that closes the session: its first word is [exit]. *)
Definition is_exit_line (line : str) : Prop := head (split line) = Some (lit "exit").

(** A line as the history holds it: not empty, no white space at either
    end. *)
Definition stripped_line (line : str) : Prop := line ≠ [] ∧ strip line = line.

(** What one character does to the history and to [closed]. *)
Definition step_ok (s : Session.t) (o : Session.flow) : Prop :=
  let s' := flow_state o in
  let line := strip (Session.buffer s) in
  match o with
  | Session.Next _ =>
      Channel.closed (Session.channel s') = Channel.closed (Session.channel s)
      ∧ (Session.commands s' = Session.commands s
         ∨ Session.commands s' = Session.commands s ++ [line]
           ∧ line ≠ [] ∧ ¬ is_exit_line line)
  | Session.Break _ =>
      Channel.closed (Session.channel s') = true
      ∧ Session.commands s' = Session.commands s ++ [line]
      ∧ line ≠ [] ∧ is_exit_line line
  | Session.Raise _ =>
      Channel.closed (Session.channel s') = Channel.closed (Session.channel s)
      ∧ (Session.commands s' = Session.commands s
         ∨ Session.commands s' = Session.commands s ++ [line] ∧ line ≠ [])
  end.

(** How the history and [closed] of [s'] relate to those of [s] after
    some input: while the session goes on, when it was ended by an exit
    line, and when a write failed. *)
Inductive progress := Going | Exited | Failed.

Definition advanced (k : progress) (s s' : Session.t) : Prop :=
  ∃ added,
    Session.commands s' = Session.commands s ++ added
    ∧ Forall stripped_line added
    ∧ match k with
      | Going =>
          Channel.closed (Session.channel s') = Channel.closed (Session.channel s)
          ∧ Forall (λ l, ¬ is_exit_line l) added
      | Exited =>
          Channel.closed (Session.channel s') = true
          ∧ ∃ pre l, added = pre ++ [l] ∧ is_exit_line l
                     ∧ Forall (λ l, ¬ is_exit_line l) pre
      | Failed =>
          Channel.closed (Session.channel s') = Channel.closed (Session.channel s)
          ∧ Forall (λ l, ¬ is_exit_line l) (removelast added)
      end.

Definition flow_progress (o : Session.flow) : progress :=
  match o with
  | Session.Next _ => Going
  | Session.Break _ => Exited
  | Session.Raise _ => Failed
  end.

Definition end_progress (e : Session.loop_end) : progress :=
  match e with
  | Session.Pending _ => Going
  | Session.Raised _ => Failed
  | Session.Finished s => if Channel.closed (Session.channel s) then Exited else Going
  end.

(** A Unicode scalar value: a code point that is not a surrogate. *)
Definition scalar_value (c : N) : Prop :=
  (c < 1114112)%N ∧ ¬ (55296 ≤ c < 57344)%N.

(** A call on the limiter, and a run of calls in order. *)
Inductive call :=
  | Attempt (ip : str) (now : Z)
  | Snapshot (ip : str) (now : Z).

Definition call_ip (c : call) : str :=
  match c with Attempt ip _ | Snapshot ip _ => ip end.

Definition call_time (c : call) : Z :=
  match c with Attempt _ now | Snapshot _ now => now end.

Definition do_call (rl : RateLimiter.t) (c : call) : RateLimiter.t :=
  match c with
  | Attempt ip now => snd (RateLimiter.is_rate_limited rl ip now)
  | Snapshot ip now => snd (RateLimiter.get_stats rl ip now)
  end.

Definition run_calls (rl : RateLimiter.t) (calls : list call) : RateLimiter.t :=
  foldl do_call rl calls.

(** The windows are in time order and hold nothing later than [hi]. *)
Definition in_order (hi : Z) (rl : RateLimiter.t) : Prop :=
  ∀ ip, Sorted Z.le (RateLimiter.window rl ip)
        ∧ ∀ x, In x (RateLimiter.window rl ip) → x ≤ hi.

(** The name under which a rule is reported. *)
Definition rule_name (label pattern : str) : str := label ++ lit ": " ++ pattern.

(** Every rule of the four tables under its name, in table order. *)
Definition all_rule_names : list str :=
  List.map (rule_name (lit "SQL_INJECTION")) AttackDetector.SQL_PATTERNS
  ++ List.map (rule_name (lit "XSS")) AttackDetector.XSS_PATTERNS
  ++ List.map (rule_name (lit "PATH_TRAVERSAL")) AttackDetector.PATH_TRAVERSAL_PATTERNS
  ++ List.map (rule_name (lit "COMMAND_INJECTION"))
       AttackDetector.COMMAND_INJECTION_PATTERNS.

(** Whether a pattern of the tables is found in a text. *)
Definition pattern_found
    (unicode_tolower : char → char) (unicode_isalnum : char → bool)
    (pattern text : str) : bool :=
  match Re.search unicode_tolower unicode_isalnum pattern text with
  | Some b => b
  | None => false
  end.

(** One login request with the clock readings taken while serving it. *)
Record login := mk_login {
  login_request : Http.request;
  login_username : str;
  login_password : str;
  login_now1 : Z;
  login_now2 : Z;
}.

(** Login requests served one after the other: the answers in order,
    the limiter and the event log at the end. *)
Definition run_logins
    (unicode_tolower : char → char) (unicode_isalnum : char → bool)
    (unicode_lower_ucs4 : str → nat → char → str) (md5_hexdigest : str → str)
    (rl : RateLimiter.t) (events : list Http.event) (ls : list login)
  : list Http.response * RateLimiter.t * list Http.event :=
  foldl (λ '(rs, rl, events) l,
           let '(r, rl1, events1) :=
             Http.admin_login_post unicode_tolower unicode_isalnum
               unicode_lower_ucs4 md5_hexdigest (login_request l)
               (login_username l) (login_password l) (login_now1 l)
               (login_now2 l) rl events in
           (rs ++ [r], rl1, events1))
    ([], rl, events) ls.

(** * Properties *)

(** ** Strings *)

Section StringFacts.

Lemma startswith_app p s : startswith p (p ++ s) = true.
Proof. induction p as [|a p IH]; simpl; [done|]. by rewrite decide_True. Qed.

Lemma startswith_inv p : ∀ s, startswith p s = true → ∃ r, s = p ++ r.
Proof.
  induction p as [|a p IH]; intros s H; simpl in *; [by exists s|].
  destruct s as [|b s]; [done|]. destruct (decide (a = b)) as [->|]; [|done].
  destruct (IH s H) as [r ->]. by exists r.
Qed.

Lemma is_word_inv w :
  is_word w = true → w ≠ [] ∧ Forall (λ c, isspace c = false) w.
Proof.
  destruct w as [|a w]; [done|]. unfold is_word. intros H. split; [done|].
  apply Forall_forall. intros c Hc. apply list_elem_of_In in Hc.
  rewrite forallb_forall in H. specialize (H c Hc). by destruct (isspace c).
Qed.

Lemma rstrip_nonspace_end s c :
  isspace c = false → rstrip (s ++ [c]) = s ++ [c].
Proof.
  intros Hc. induction s as [|a s IH]; simpl; [by rewrite Hc|].
  rewrite IH. by destruct s.
Qed.

Lemma rstrip_last s c :
  last s = Some c → isspace c = false → rstrip s = s.
Proof.
  intros [l ->]%last_Some Hc. by apply rstrip_nonspace_end.
Qed.

Lemma lstrip_head s a :
  head s = Some a → isspace a = false → lstrip s = s.
Proof. destruct s as [|b s]; [done|]. simpl. by intros [= ->] ->. Qed.

Lemma word_head_last w :
  is_word w = true →
  (∃ a, head w = Some a ∧ isspace a = false)
  ∧ (∃ c, last w = Some c ∧ isspace c = false).
Proof.
  intros [Hne Hall]%is_word_inv. rewrite Forall_forall in Hall. split.
  - destruct w as [|a w]; [done|]. exists a. split; [done|].
    apply Hall. set_solver.
  - destruct (last w) as [c|] eqn:E; [|by apply last_None in E].
    exists c. split; [done|]. apply Hall.
    apply last_Some in E as [l ->]. set_solver.
Qed.

Lemma split_acc_run u : ∀ acc s,
  Forall (λ c, isspace c = false) u →
  split_acc acc (u ++ s) = split_acc (acc ++ u) s.
Proof.
  induction u as [|a u IH]; intros acc s H; simpl.
  { by rewrite app_nil_r. }
  inversion H as [|? ? Ha Hu]; subst. rewrite Ha.
  rewrite IH by done. by rewrite <- app_assoc.
Qed.

Lemma split_acc_blank w s :
  w ≠ [] → split_acc w (32%N :: s) = w :: split_acc [] s.
Proof. by destruct w. Qed.

(** Words joined by single blanks split back into the same words. *)
Lemma split_join ws :
  forallb is_word ws = true → split (join [32%N] ws) = ws.
Proof.
  unfold split. induction ws as [|w ws IH]; intros H; [done|].
  simpl in H. apply andb_true_iff in H as [Hw Hws].
  destruct (is_word_inv w Hw) as [Hne Hall].
  destruct ws as [|w' ws].
  - simpl. rewrite <- (app_nil_r w) at 1. rewrite split_acc_run by done.
    simpl. by destruct w.
  - change (join [32%N] (w :: w' :: ws))
      with (w ++ 32%N :: join [32%N] (w' :: ws)).
    rewrite split_acc_run by done. rewrite app_nil_l.
    rewrite split_acc_blank by done. by rewrite IH.
Qed.

Lemma join_cons2 sep w w' ws :
  join sep (w :: w' :: ws) = w ++ sep ++ join sep (w' :: ws).
Proof. reflexivity. Qed.

(** A line made of words joined by single blanks has no blank to strip. *)
Lemma strip_join ws :
  forallb is_word ws = true → strip (join [32%N] ws) = join [32%N] ws.
Proof.
  destruct ws as [|w ws]; [done|]. intros H.
  assert (Hh : ∃ a, head (join [32%N] (w :: ws)) = Some a ∧ isspace a = false).
  { simpl in H. apply andb_true_iff in H as [Hw _].
    destruct (word_head_last w Hw) as [(a & Ha & Hsp) _].
    exists a. split; [|done]. destruct w as [|b w]; [done|].
    destruct ws; [done|]. by rewrite join_cons2. }
  assert (Hl : ∃ c, last (join [32%N] (w :: ws)) = Some c ∧ isspace c = false).
  { clear Hh. revert w H. induction ws as [|w' ws IH]; intros w H.
    - simpl in H. apply andb_true_iff in H as [Hw _].
      by destruct (word_head_last w Hw) as [_ ?].
    - simpl in H. apply andb_true_iff in H as [_ Hws].
      destruct (IH w' Hws) as (c & Hc & Hsp). exists c. split; [|done].
      rewrite join_cons2. rewrite !last_app. by rewrite Hc. }
  destruct Hh as (a & Ha & Hsa). destruct Hl as (c & Hc & Hsc).
  unfold strip. rewrite (lstrip_head _ a) by done. by apply (rstrip_last _ c).
Qed.

End StringFacts.

(** ** The emulated shell *)

Section ShellFacts.
Import FakeShell.

Lemma rstrip_char_last c s x :
  last s = Some x → x ≠ c → rstrip_char c s = s.
Proof.
  intros [l ->]%last_Some Hx. induction l as [|a l IH]; simpl.
  - by rewrite decide_False.
  - rewrite IH. by destruct l.
Qed.

Lemma replace_pair_step c new a b s :
  replace_pair c new (a :: b :: s)
  = if decide (a = c)
    then if decide (b = c) then new ++ replace_pair c new s
         else a :: replace_pair c new (b :: s)
    else a :: replace_pair c new (b :: s).
Proof. reflexivity. Qed.



Lemma execute_command_words sh command args :
  forallb is_word (command :: args) = true →
  execute_command sh (join (lit " ") (command :: args))
  = dispatch sh command args.
Proof.
  intros H. unfold execute_command. change (lit " ") with [32%N].
  rewrite strip_join, split_join by done.
  destruct (join [32%N] (command :: args)) eqn:E; [|done].
  simpl in H. apply andb_true_iff in H as [Hc _].
  destruct command; [done|]. by destruct args.
Qed.

Ltac not_that_command :=
  match goal with
  | |- context [decide (?a = ?b)] =>
      destruct (decide (a = b)) as [E|_]; [by vm_compute in E|]
  end.

Lemma dispatch_ls sh args : dispatch sh (lit "ls") args = (Some (_cmd_ls sh args), sh).
Proof. unfold dispatch. by rewrite decide_True. Qed.

Lemma dispatch_pwd sh args : dispatch sh (lit "pwd") args = (Some (cwd sh), sh).
Proof. unfold dispatch. not_that_command. by rewrite decide_True. Qed.

Lemma dispatch_cat sh args : dispatch sh (lit "cat") args = (Some (_cmd_cat sh args), sh).
Proof. unfold dispatch. do 3 not_that_command. by rewrite decide_True. Qed.

Lemma dispatch_cd sh args :
  dispatch sh (lit "cd") args = (Some (fst (_cmd_cd sh args)), snd (_cmd_cd sh args)).
Proof.
  unfold dispatch. do 5 not_that_command. rewrite decide_True by done.
  by destruct (_cmd_cd sh args).
Qed.

Lemma words_cons w ws :
  is_word w = true → forallb is_word ws = true → forallb is_word (w :: ws) = true.
Proof. intros Hw Hws. simpl. by rewrite Hw, Hws. Qed.

(** C5, as stated, fails when a flag comes first: the flag is not set
    aside, it takes the place of the path operand.  [ls -la /etc] lists
    the current directory, not [/etc], and [ls -la /nonexistent] reports
    no error. *)
Lemma ls_flag_hides_path_operand :
  let sh := init (lit "root") in
  execute_command sh (lit "ls /etc")
  = (Some (lit "passwd  shadow  hosts  ssh"), sh)
  ∧ execute_command sh (lit "ls -la /etc")
    = (Some (lit "documents  downloads  .bash_history  .ssh"), sh)
  ∧ execute_command sh (lit "ls /nonexistent")
    = (Some (lit "ls: cannot access '/nonexistent': No such file or directory"), sh)
  ∧ execute_command sh (lit "ls -la /nonexistent")
    = (Some (lit "documents  downloads  .bash_history  .ssh"), sh).
Proof. by vm_compute. Qed.

(** C5, amended.  [ls] consults its first argument only.  With no
    argument, or when the first argument is a flag (it begins with [-]),
    the current directory is listed, whatever follows: the answer is that
    of [ls] alone.  Otherwise the first argument is the path: taken as it
    stands when it begins with [/], appended to [cwd] after a [/] when not.
    Trailing slashes are dropped (the empty path being the root) and the
    result is the child names of that directory in their configured
    order, joined by two blanks, or an error text when the path is not a
    directory of the virtual filesystem.  The shell itself is left as it
    was. *)
Theorem ls_lists_resolved_directory
    (sh : t) (args : list str) (Hargs : forallb is_word args = true) :
  let operand :=
    match args with
    | a :: _ => if startswith (lit "-") a then None else Some a
    | [] => None
    end in
  let path :=
    match operand with
    | Some a => if startswith (lit "/") a then a else cwd sh ++ lit "/" ++ a
    | None => cwd sh
    end in
  let node := if rstrip_char 47%N path is [] then lit "/" else rstrip_char 47%N path in
  execute_command sh (join (lit " ") (lit "ls" :: args))
  = (Some match filesystem sh !! node with
          | Some names => join (lit "  ") names
          | None => lit "ls: cannot access '" ++ node
                    ++ lit "': No such file or directory"
          end, sh)
  ∧ (operand = None →
     execute_command sh (join (lit " ") (lit "ls" :: args))
     = execute_command sh (lit "ls")).
Proof.
  intros operand path node.
  assert (Hls : execute_command sh (lit "ls") = (Some (_cmd_ls sh []), sh)).
  { change (lit "ls") with (join (lit " ") [lit "ls"]) at 1.
    rewrite execute_command_words by done. apply dispatch_ls. }
  rewrite Hls.
  rewrite execute_command_words by (by apply words_cons).
  rewrite dispatch_ls. unfold node, path, operand, _cmd_ls.
  destruct args as [|a args]; [done|].
  by destruct (startswith (lit "-") a).
Qed.

(** [ls] at the root, and [ls /etc/] from the home directory. *)
Lemma ls_lists_resolved_directory_witness :
  execute_command (set_cwd (init (lit "root")) (lit "/")) (lit "ls")
  = (Some (lit "bin  etc  home  var  usr  tmp"),
     set_cwd (init (lit "root")) (lit "/"))
  ∧ execute_command (init (lit "root")) (lit "ls /etc/")
    = (Some (lit "passwd  shadow  hosts  ssh"), init (lit "root")).
Proof.
  split.
  - exact (proj1 (ls_lists_resolved_directory
                    (set_cwd (init (lit "root")) (lit "/")) [] eq_refl)).
  - exact (proj1 (ls_lists_resolved_directory (init (lit "root")) [lit "/etc/"]
                    eq_refl)).
Defined.

(** C6, as stated, fails for a path that names a file: [/etc/passwd] is a
    node of the virtual filesystem, yet [cd /etc/passwd] is an error and
    leaves [cwd] alone. *)
Lemma cd_rejects_known_file :
  let sh := init (lit "root") in
  is_Some (files sh !! lit "/etc/passwd")
  ∧ startswith (lit "/home/") (lit "/etc/passwd") = false
  ∧ execute_command sh (lit "cd /etc/passwd")
    = (Some (lit "bash: cd: /etc/passwd: No such file or directory"), sh)
  ∧ cwd (snd (execute_command sh (lit "cd /etc/passwd"))) = lit "/home/root".
Proof. vm_compute. split; [by eexists|done]. Qed.

(** C6, amended.  [cd] with an argument takes the argument itself when it
    begins with [/], and otherwise [cwd], a [/] and the argument with
    every doubled slash collapsed.  The target is accepted, and [cwd] set
    to it, if and only if it is a directory of the virtual filesystem or
    begins with [/home/]; in every other case [cd] answers with an error
    and [cwd] is unchanged.  With no argument [cwd] becomes
    [/home/<username>]. *)
Theorem cd_accepts_directories_and_home
    (sh : t) (args : list str) (Hargs : forallb is_word args = true) :
  match args with
  | [] =>
      execute_command sh (lit "cd")
      = (Some [], set_cwd sh (lit "/home/" ++ username sh))
  | new_path :: _ =>
      let target :=
        if startswith (lit "/") new_path then new_path
        else replace_pair 47%N (lit "/") (cwd sh ++ lit "/" ++ new_path) in
      let result := execute_command sh (join (lit " ") (lit "cd" :: args)) in
      (is_Some (filesystem sh !! target) ∨ startswith (lit "/home/") target = true
       → result = (Some [], set_cwd sh target))
      ∧ (¬ (is_Some (filesystem sh !! target)
            ∨ startswith (lit "/home/") target = true)
         → result = (Some (lit "bash: cd: " ++ new_path
                            ++ lit ": No such file or directory"), sh))
  end.
Proof.
  destruct args as [|new_path args].
  { change (execute_command sh (lit "cd"))
      with (execute_command sh (join (lit " ") [lit "cd"])).
    rewrite execute_command_words by done. by rewrite dispatch_cd. }
  intros target result. unfold result.
  rewrite execute_command_words by (by apply words_cons).
  rewrite dispatch_cd. unfold _cmd_cd. fold target.
  destruct (bool_decide (is_Some (filesystem sh !! target))) eqn:Hdir;
    [apply bool_decide_eq_true in Hdir|apply bool_decide_eq_false in Hdir];
    destruct (startswith (lit "/home/") target) eqn:Hhome; simpl;
    split; intros H; try done; try (exfalso; apply H; by auto).
  by destruct H.
Qed.

(** [cd] with no argument, [cd /var], [cd projects] and [cd /opt] for the
    user [root]. *)
Lemma cd_accepts_directories_and_home_witness :
  let sh := init (lit "root") in
  execute_command sh (lit "cd") = (Some [], set_cwd sh (lit "/home/root"))
  ∧ execute_command sh (lit "cd /var") = (Some [], set_cwd sh (lit "/var"))
  ∧ execute_command sh (lit "cd projects")
    = (Some [], set_cwd sh (lit "/home/root/projects"))
  ∧ execute_command sh (lit "cd /opt")
    = (Some (lit "bash: cd: /opt: No such file or directory"), sh).
Proof.
  intros sh. split; [|split; [|split]].
  - exact (cd_accepts_directories_and_home sh [] eq_refl).
  - refine (proj1 (cd_accepts_directories_and_home sh [lit "/var"] eq_refl) _).
    left. vm_compute. by eexists.
  - refine (proj1 (cd_accepts_directories_and_home sh [lit "projects"] eq_refl) _).
    right. by vm_compute.
  - refine (proj2 (cd_accepts_directories_and_home sh [lit "/opt"] eq_refl) _).
    vm_compute. intros [[? [=]]|[=]].
Defined.






End ShellFacts.

(** ** Rate limiter *)

Section RateLimiterFacts.
Import RateLimiter.

Lemma window_set_window rl ip w : window (set_window rl ip w) ip = w.
Proof. unfold window, set_window; simpl. by rewrite lookup_insert_eq. Qed.

Lemma window_set_window_ne rl ip ip' w :
  ip ≠ ip' → window (set_window rl ip w) ip' = window rl ip'.
Proof. intros Hne. unfold window, set_window; simpl. by rewrite lookup_insert_ne. Qed.

Lemma cutoff_set_window rl ip w now : cutoff (set_window rl ip w) now = cutoff rl now.
Proof. reflexivity. Qed.

Lemma filter_In_ext {A} (f g : A → bool) (l : list A) :
  (∀ x, In x l → f x = g x) → List.filter f l = List.filter g l.
Proof.
  induction l as [|a l IH]; intros H; simpl; [done|].
  rewrite (H a) by (by left). rewrite IH; [done|].
  intros x Hx. apply H. by right.
Qed.

Lemma filter_none {A} (f : A → bool) (l : list A) :
  (∀ x, In x l → f x = false) → List.filter f l = [].
Proof.
  induction l as [|a l IH]; intros H; simpl; [done|].
  rewrite (H a) by (by left). apply IH. intros x Hx. apply H. by right.
Qed.

Lemma filter_all {A} (f : A → bool) (l : list A) :
  (∀ x, In x l → f x = true) → List.filter f l = l.
Proof.
  induction l as [|a l IH]; intros H; simpl; [done|].
  rewrite (H a) by (by left). f_equal. apply IH. intros x Hx. apply H. by right.
Qed.

Lemma filter_idem {A} (f : A → bool) (l : list A) :
  List.filter f (List.filter f l) = List.filter f l.
Proof. apply filter_all. intros x Hx. by apply List.filter_In in Hx as [_ ?]. Qed.

Lemma filter_sublist {A} (f : A → bool) (l : list A) : sublist (List.filter f l) l.
Proof.
  induction l as [|a l IH]; simpl; [constructor|].
  destruct (f a); by constructor.
Qed.

(** What one [is_rate_limited] call does to the caller's window. *)
Lemma is_rate_limited_unfold rl ip now :
  let kept := prune rl ip now in
  if max_requests rl <=? Z.of_nat (length kept)
  then fst (is_rate_limited rl ip now) = true
       ∧ window (snd (is_rate_limited rl ip now)) ip = kept
  else fst (is_rate_limited rl ip now) = false
       ∧ window (snd (is_rate_limited rl ip now)) ip = kept ++ [now].
Proof.
  unfold is_rate_limited. simpl.
  destruct (max_requests rl <=? Z.of_nat (length (prune rl ip now)));
    simpl; by rewrite window_set_window.
Qed.

Lemma is_rate_limited_params rl ip now :
  max_requests (snd (is_rate_limited rl ip now)) = max_requests rl
  ∧ window_seconds (snd (is_rate_limited rl ip now)) = window_seconds rl.
Proof. unfold is_rate_limited. by destruct (_ <=? _). Qed.

Lemma is_rate_limited_frame rl ip ip' now :
  ip ≠ ip' → window (snd (is_rate_limited rl ip now)) ip' = window rl ip'.
Proof.
  intros Hne. unfold is_rate_limited.
  destruct (_ <=? _); simpl; by apply window_set_window_ne.
Qed.

Lemma get_stats_unfold rl ip now :
  get_stats rl ip now
  = (mk_stats (Z.of_nat (length (prune rl ip now))) (max_requests rl)
       (window_seconds rl)
       (max_requests rl <=? Z.of_nat (length (prune rl ip now))),
     set_window rl ip (prune rl ip now)).
Proof. reflexivity. Qed.

(** A run of attempts that all fit under the capacity: every one is
    let through and recorded.  [lo] is the cutoff of the instant that closes
    the window; an entry already present is either expired for every
    coming attempt or still live at [lo]. *)
Lemma attempts_all_pass ip lo ts : ∀ rl,
  (∀ x, In x (window rl ip) → (∀ t, In t ts → x ≤ cutoff rl t) ∨ lo < x) →
  (∀ t, In t ts → lo < t ∧ cutoff rl t ≤ lo) →
  Z.of_nat (length (List.filter (λ x, lo <? x) (window rl ip)) + length ts)
    ≤ max_requests rl →
  fst (attempts rl ip ts) = List.repeat false (length ts)
  ∧ window (snd (attempts rl ip ts)) ip
    = (if ts is [] then window rl ip
       else List.filter (λ x, lo <? x) (window rl ip) ++ ts)
  ∧ max_requests (snd (attempts rl ip ts)) = max_requests rl
  ∧ window_seconds (snd (attempts rl ip ts)) = window_seconds rl.
Proof.
  induction ts as [|t ts IH]; intros rl Hold Hts Hcap; [done|].
  assert (Hkept : prune rl ip t = List.filter (λ x, lo <? x) (window rl ip)).
  { unfold prune. apply filter_In_ext. intros x Hx.
    destruct (Hts t (or_introl eq_refl)) as [_ Hct].
    destruct (Hold x Hx) as [Hdead|Hlive].
    - specialize (Hdead t (or_introl eq_refl)).
      transitivity false; [|symmetry]; apply Z.ltb_ge; lia.
    - transitivity true; [|symmetry]; apply Z.ltb_lt; lia. }
  pose proof (is_rate_limited_unfold rl ip t) as Hstep.
  pose proof (is_rate_limited_params rl ip t) as [Hmax Hwin].
  simpl in Hstep. rewrite Hkept in Hstep.
  destruct (max_requests rl <=? _) eqn:Hle.
  { apply Z.leb_le in Hle. simpl in Hcap. lia. }
  destruct Hstep as [Hb Hw].
  simpl. destruct (is_rate_limited rl ip t) as [b rl1] eqn:E1. simpl in *.
  subst b.
  assert (Hcut : ∀ now, cutoff rl1 now = cutoff rl now).
  { intros now. unfold cutoff. by rewrite Hwin. }
  destruct (IH rl1) as (Hr & Hw' & Hm' & Hs').
  - intros x Hx. right. rewrite Hw in Hx. apply List.in_app_iff in Hx as [Hx|Hx].
    + apply List.filter_In in Hx as [_ Hx]. by apply Z.ltb_lt in Hx.
    + destruct Hx as [<-|[]]. apply (Hts t). by left.
  - intros t' Ht'. rewrite Hcut. apply Hts. by right.
  - rewrite Hw, Hmax. rewrite List.filter_app, filter_idem. simpl.
    destruct (Hts t (or_introl eq_refl)) as [Hlt _].
    apply Z.ltb_lt in Hlt. rewrite Hlt. rewrite length_app. simpl in *. lia.
  - destruct (attempts rl1 ip ts) as [bs rl2] eqn:E2. simpl in *.
    split; [by rewrite Hr|]. split; [|split; congruence].
    rewrite Hw', Hw. rewrite List.filter_app, filter_idem. simpl.
    destruct (Hts t (or_introl eq_refl)) as [Hlt _].
    apply Z.ltb_lt in Hlt. rewrite Hlt.
    destruct ts; [done|]. by rewrite <- app_assoc.
Qed.

(** C2. [is_rate_limited] prunes the caller's window first.  When the
    surviving count has reached the capacity it answers [true] and the
    window is left as pruned, with nothing appended; otherwise it appends
    the current instant and answers [false].  Consequently, for a positive
    capacity [c] and a caller with no live entry: [c] attempts made inside
    one window all pass, one more attempt inside that window is
    limited, and an attempt made once the window has gone by passes
    again. *)
Theorem attempt_prunes_then_checks_capacity
    (rl : t) (ip : str) (ts : list Z) (t_next t_later : Z)
    (Hcap : max_requests rl = Z.of_nat (length ts))
    (Hpos : 0 < max_requests rl)
    (Hfresh : ∀ x t, In x (window rl ip) → In t ts → x ≤ cutoff rl t)
    (Hwithin : ∀ t, In t ts → cutoff rl t_next < t ∧ t ≤ t_next)
    (Hlater : ∀ t, In t ts → t ≤ cutoff rl t_later) :
  (∀ r now,
     let kept := List.filter (λ t, now - window_seconds r * 1000000 <? t)
                   (window r ip) in
     (max_requests r ≤ Z.of_nat (length kept) →
        fst (is_rate_limited r ip now) = true
        ∧ window (snd (is_rate_limited r ip now)) ip = kept)
     ∧ (Z.of_nat (length kept) < max_requests r →
        fst (is_rate_limited r ip now) = false
        ∧ window (snd (is_rate_limited r ip now)) ip = kept ++ [now]))
  ∧ fst (attempts rl ip ts) = List.repeat false (length ts)
  ∧ (let rl1 := snd (attempts rl ip ts) in
     fst (is_rate_limited rl1 ip t_next) = true
     ∧ window (snd (is_rate_limited rl1 ip t_next)) ip = ts
     ∧ fst (is_rate_limited (snd (is_rate_limited rl1 ip t_next)) ip t_later)
       = false).
Proof.
  split.
  { intros r now kept. pose proof (is_rate_limited_unfold r ip now) as H.
    simpl in H. fold kept in H. unfold prune, cutoff in H. fold kept in H.
    destruct (max_requests r <=? Z.of_nat (length kept)) eqn:E.
    - apply Z.leb_le in E. split; [done|lia].
    - apply Z.leb_gt in E. split; [lia|done]. }
  assert (Hne : ts ≠ []) by (intros ->; simpl in *; lia).
  assert (Hdead : List.filter (λ x, cutoff rl t_next <? x) (window rl ip) = []).
  { apply filter_none. intros x Hx. destruct ts as [|t0 ts']; [done|].
    specialize (Hfresh x t0 Hx (or_introl eq_refl)).
    destruct (Hwithin t0 (or_introl eq_refl)) as [_ Hle].
    apply Z.ltb_ge. unfold cutoff in *. lia. }
  destruct (attempts_all_pass ip (cutoff rl t_next) ts rl) as (Hr & Hw & Hm & Hs).
  - intros x Hx. left. intros t Ht. by apply Hfresh.
  - intros t Ht. destruct (Hwithin t Ht). unfold cutoff in *. lia.
  - rewrite Hdead. simpl. lia.
  - split; [done|]. simpl.
    set (rl1 := snd (attempts rl ip ts)) in *.
    rewrite Hdead in Hw. simpl in Hw.
    assert (Hw1 : window rl1 ip = ts) by (by destruct ts).
    assert (Hcut : ∀ now, cutoff rl1 now = cutoff rl now).
    { intros now. unfold cutoff. by rewrite Hs. }
    pose proof (is_rate_limited_unfold rl1 ip t_next) as H1. simpl in H1.
    assert (Hk : prune rl1 ip t_next = ts).
    { unfold prune. rewrite Hw1, Hcut. apply filter_all. intros x Hx.
      apply Z.ltb_lt. by apply Hwithin. }
    rewrite Hk, Hm in H1.
    destruct (max_requests rl <=? Z.of_nat (length ts)) eqn:E;
      [|apply Z.leb_gt in E; lia].
    destruct H1 as [Hb1 Hw2]. split; [done|]. split; [done|].
    set (rl2 := snd (is_rate_limited rl1 ip t_next)) in *.
    pose proof (is_rate_limited_params rl1 ip t_next) as [Hm2 Hs2].
    fold rl2 in Hm2, Hs2.
    pose proof (is_rate_limited_unfold rl2 ip t_later) as H2. simpl in H2.
    assert (Hk2 : prune rl2 ip t_later = []).
    { unfold prune. rewrite Hw2. apply filter_none. intros x Hx.
      apply Z.ltb_ge. unfold cutoff. rewrite Hs2, Hs. by apply Hlater. }
    rewrite Hk2, Hm2, Hm in H2. simpl in H2.
    rewrite (proj2 (Z.leb_gt _ _)) in H2 by lia.
    by destruct H2.
Qed.

(** The scenario of the specification: capacity 3, window 60 s; attempts
    at 0 s, 10 s and 20 s, a fourth at 30 s, a fifth at 100 s. *)
Lemma attempt_prunes_then_checks_capacity_witness :
  fst (attempts (init 3 60) (lit "10.0.0.7") [0; 10000000; 20000000])
    = [false; false; false]
  ∧ (let rl1 := snd (attempts (init 3 60) (lit "10.0.0.7")
                       [0; 10000000; 20000000]) in
     fst (is_rate_limited rl1 (lit "10.0.0.7") 30000000) = true
     ∧ window (snd (is_rate_limited rl1 (lit "10.0.0.7") 30000000))
         (lit "10.0.0.7") = [0; 10000000; 20000000]
     ∧ fst (is_rate_limited
              (snd (is_rate_limited rl1 (lit "10.0.0.7") 30000000))
              (lit "10.0.0.7") 100000000) = false).
Proof.
  refine (proj2 (attempt_prunes_then_checks_capacity (init 3 60)
            (lit "10.0.0.7") [0; 10000000; 20000000] 30000000 100000000
            _ _ _ _ _)).
  - reflexivity.
  - reflexivity.
  - intros x t Hx. vm_compute in Hx. destruct Hx.
  - intros t Ht. unfold cutoff. simpl in *.
    destruct Ht as [<-|[<-|[<-|[]]]]; lia.
  - intros t Ht. unfold cutoff. simpl in *.
    destruct Ht as [<-|[<-|[<-|[]]]]; lia.
Defined.

(** C3. [get_stats] (through [get_request_count]) appends nothing to any
    window: called [n] times at one instant with no attempt in between it
    reports the same count every time, every window afterwards is a
    subsequence of what it was, and the entries that survive the window
    are the same before and after, for every caller. *)
Theorem snapshot_never_appends
    (rl : t) (ip : str) (now : Z) (n : nat) :
  (∀ s, In s (fst (snapshots n rl ip now)) →
        request_count s = request_count (fst (get_stats rl ip now))
        ∧ request_count s = Z.of_nat (length (prune rl ip now)))
  ∧ length (fst (snapshots n rl ip now)) = n
  ∧ (∀ ip', sublist (window (snd (snapshots n rl ip now)) ip') (window rl ip'))
  ∧ (∀ ip', prune (snd (snapshots n rl ip now)) ip' now = prune rl ip' now).
Proof.
  revert rl. induction n as [|n IH]; intros rl.
  { simpl. split; [intros s []|]. by repeat split. }
  cbn [snapshots]. rewrite get_stats_unfold.
  set (rl1 := set_window rl ip (prune rl ip now)).
  destruct (snapshots n rl1 ip now) as [ss rl2] eqn:E.
  specialize (IH rl1). rewrite E in IH. simpl in IH.
  destruct IH as (Hc & Hlen & Hsub & Hpr).
  assert (Hp1 : ∀ ip', prune rl1 ip' now = prune rl ip' now).
  { intros ip'. unfold prune, rl1. rewrite cutoff_set_window.
    destruct (decide (ip = ip')) as [<-|Hne].
    - rewrite window_set_window. apply filter_idem.
    - by rewrite window_set_window_ne. }
  simpl. split; [|split; [|split]].
  - intros s [<-|H]; [done|]. destruct (Hc s H) as [_ ->]. by rewrite Hp1.
  - by rewrite Hlen.
  - intros ip'. etrans; [apply Hsub|].
    destruct (decide (ip = ip')) as [<-|Hne]; unfold rl1.
    + rewrite window_set_window. apply filter_sublist.
    + by rewrite window_set_window_ne.
  - intros ip'. by rewrite Hpr, Hp1.
Qed.

(** C4, as stated, fails at the boundary: an entry recorded exactly
    [window_seconds] before the call is not older than the window, yet the
    prune discards it. *)
Lemma prune_discards_boundary_entry :
  let ip := lit "10.0.0.7" in
  let rl := set_window (init 3 60) ip [0] in
  let now := 60000000 in
  In 0 (window rl ip)
  ∧ 0 = now - window_seconds rl * 1000000
  ∧ ¬ In 0 (window (snd (get_request_count rl ip now)) ip)
  ∧ ¬ In 0 (window (snd (is_rate_limited rl ip now)) ip)
  ∧ fst (get_request_count rl ip now) = 0.
Proof.
  vm_compute. split; [by left|]. split; [done|].
  split; [by intros []|]. split; [|done]. by intros [?|[]].
Qed.

(** C4, amended.  The prune of [get_request_count], [get_stats] and
    [is_rate_limited] keeps exactly the entries strictly later than
    [now - window_seconds], each as often as it was recorded and in the
    order recorded: entries older than the window and the entry recorded
    exactly [window_seconds] ago are discarded.  The count reported is
    the number of entries kept, and [is_rate_limited] appends [now] to
    them when they are fewer than [max_requests]. *)
Theorem prune_keeps_strictly_newer
    (rl : t) (ip : str) (now : Z) :
  let kept :=
    List.filter (λ req_time, now - window_seconds rl * 1000000 <? req_time)
      (window rl ip) in
  fst (get_request_count rl ip now) = Z.of_nat (length kept)
  ∧ window (snd (get_request_count rl ip now)) ip = kept
  ∧ window (snd (get_stats rl ip now)) ip = kept
  ∧ window (snd (is_rate_limited rl ip now)) ip
    = (if max_requests rl <=? Z.of_nat (length kept) then kept else kept ++ [now])
  ∧ (∀ t, In t kept
          ↔ In t (window rl ip) ∧ now - window_seconds rl * 1000000 < t)
  ∧ (∀ t, count_occ Z.eq_dec kept t
          = if now - window_seconds rl * 1000000 <? t
            then count_occ Z.eq_dec (window rl ip) t else 0%nat)
  ∧ sublist kept (window rl ip).
Proof.
  intros kept.
  assert (Hk : prune rl ip now = kept) by reflexivity.
  split; [done|]. split; [apply window_set_window|].
  split; [rewrite get_stats_unfold; apply window_set_window|].
  split.
  { pose proof (is_rate_limited_unfold rl ip now) as H. cbv zeta in H.
    change (prune rl ip now) with kept in H.
    destruct (_ <=? _); by destruct H. }
  split; [|split; [|apply filter_sublist]].
  - intros t. unfold kept. rewrite List.filter_In. by rewrite Z.ltb_lt.
  - intros t. unfold kept. clear Hk kept.
    induction (window rl ip) as [|x w IH]; cbn [List.filter].
    + by destruct (_ <? _).
    + destruct (now - window_seconds rl * 1000000 <? x) eqn:Ex; cbn [count_occ].
      * destruct (Z.eq_dec x t) as [->|]; [|exact IH].
        rewrite IH. by rewrite Ex.
      * rewrite IH. destruct (Z.eq_dec x t) as [->|]; [|done]. by rewrite Ex.
Qed.

End RateLimiterFacts.

(** ** The interactive session *)

Section SessionFacts.
Import Session.

(** A session that ends by [exit] or because the peer hangs up between
    writes logs one entry, holding every command submitted, in order. *)
Lemma clean_close_logs_once ip username rounds s :
  interact rounds
    (mk (FakeShell.init username) [] []
       (Channel.mk [lit "Welcome to Ubuntu 22.04.1 LTS" ++ [CR; LF; CR; LF];
                    FakeShell.get_prompt (FakeShell.init username)] false None))
  = Finished s →
  logged (handle_client ip username rounds) = [mk_entry ip username (commands s)].
Proof. intros H. unfold handle_client. by rewrite H. Qed.

Lemma on_char_other c sh cmds b sent closed :
  c ≠ CR → c ≠ LF → c ≠ DEL → c ≠ ETX →
  on_char c (mk sh cmds b (Channel.mk sent closed None))
  = Next (mk sh cmds (b ++ [c]) (Channel.mk (sent ++ [[c]]) closed None)).
Proof.
  intros Hcr Hlf Hdel Hetx. unfold on_char.
  rewrite decide_False by (by intros [?|?]).
  by rewrite !decide_False.
Qed.

Lemma on_char_del a b sh cmds sent closed :
  on_char DEL (mk sh cmds (a :: b) (Channel.mk sent closed None))
  = Next (mk sh cmds (removelast (a :: b))
            (Channel.mk (sent ++ [[BS; 32%N; BS]]) closed None)).
Proof.
  unfold on_char.
  rewrite decide_False by (by intros [?|?]). by rewrite decide_True.
Qed.

Lemma on_char_return sh cmds b sent closed out :
  strip b ≠ [] →
  FakeShell.execute_command sh b = (Some out, sh) →
  on_char CR (mk sh cmds b (Channel.mk sent closed None))
  = Next (mk sh (cmds ++ [strip b]) []
            (Channel.mk
               (sent ++ (if out is [] then [] else [[CR; LF] ++ out ++ [CR; LF]])
                ++ [FakeShell.get_prompt sh])
               closed None)).
Proof.
  intros Hb Hout. unfold on_char.
  rewrite decide_True by (by left). cbn [buffer shell commands channel].
  destruct (strip b) eqn:E; [done|]. rewrite Hout.
  destruct out; unfold send, set_buffer; cbn; [done|].
  by rewrite <- app_assoc.
Qed.

(** C1 does not hold of the code.  A peer sends [whoami] and a return,
    then two more characters, and is gone before the first of them can be
    echoed: [channel.send] raises, the handler leaves through its
    [except] clause, and no session entry is written although the history
    holds [whoami].  Closing by [exit], or by a hang-up seen at
    [channel.active], does write the entry. *)
Theorem failed_write_loses_session_entry :
  let ip := lit "203.0.113.9" in
  let lost := handle_client ip (lit "root")
                [mk_round (Some (lit "whoami" ++ [CR])) None;
                 mk_round (Some (lit "id")) (Some O)] in
  let hung_up := handle_client ip (lit "root")
                   [mk_round (Some (lit "whoami" ++ [CR])) None;
                    mk_round None (Some O)] in
  let exited := handle_client ip (lit "root")
                  [mk_round (Some (lit "whoami" ++ [CR] ++ lit "exit" ++ [CR])) None] in
  over lost = true
  ∧ logged lost = []
  ∧ (∃ s, last lost = Raised s ∧ commands s = [lit "whoami"])
  ∧ logged hung_up = [mk_entry ip (lit "root") [lit "whoami"]]
  ∧ logged exited = [mk_entry ip (lit "root") [lit "whoami"; lit "exit"]].
Proof.
  vm_compute. split; [done|]. split; [done|]. split; [|done].
  eexists. split; reflexivity.
Qed.





(** C9. Backspace ([0x7F]) removes the last character of a non-empty
    buffer, answering with backspace, blank, backspace, and does nothing
    on an empty buffer.  The command dispatched at the next return is the
    shortened one: after the bytes of [lsx], a backspace and a carriage
    return the history has gained [ls], and what is written back after
    the echo is the output of [ls] and a fresh prompt. *)
Theorem backspace_truncates_before_dispatch
    (sh : FakeShell.t) (cmds : list str) (sent : list str) :
  (∀ b c closed,
     on_char DEL (mk sh cmds (b ++ [c]) (Channel.mk sent closed None))
     = Next (mk sh cmds b (Channel.mk (sent ++ [[BS; 32%N; BS]]) closed None)))
  ∧ (∀ ch, on_char DEL (mk sh cmds [] ch) = Next (mk sh cmds [] ch))
  ∧ for_chars (decode_utf8_ignore (lit "lsx" ++ [127%N; 13%N]))
      (mk sh cmds [] (Channel.mk sent false None))
    = Next (mk sh (cmds ++ [lit "ls"]) []
              (Channel.mk
                 (sent ++ [lit "l"; lit "s"; lit "x"; [BS; 32%N; BS]]
                  ++ (if FakeShell._cmd_ls sh [] is [] then []
                      else [[CR; LF] ++ FakeShell._cmd_ls sh [] ++ [CR; LF]])
                  ++ [FakeShell.get_prompt sh])
                 false None))
  ∧ FakeShell.execute_command sh (lit "ls") = (Some (FakeShell._cmd_ls sh []), sh).
Proof.
  assert (Hls : FakeShell.execute_command sh (lit "ls")
                = (Some (FakeShell._cmd_ls sh []), sh)).
  { change (lit "ls") with (join (lit " ") [lit "ls"]) at 1.
    rewrite execute_command_words by done. apply dispatch_ls. }
  split; [|split; [|split]].
  - intros b c closed. destruct (b ++ [c]) as [|a l] eqn:E; [by destruct b|].
    rewrite on_char_del. rewrite <- E. by rewrite removelast_last.
  - intros ch. unfold on_char.
    rewrite decide_False by (by intros [?|?]). by rewrite decide_True.
  - change (decode_utf8_ignore (lit "lsx" ++ [127%N; 13%N]))
      with [108%N; 115%N; 120%N; DEL; CR].
    cbn [for_chars].
    rewrite on_char_other by done. rewrite on_char_other by done.
    rewrite on_char_other by done. cbn [app]. rewrite on_char_del.
    change (removelast [108%N; 115%N; 120%N]) with (lit "ls").
    rewrite (on_char_return _ _ _ _ _ _ (ltac:(done) : strip (lit "ls") ≠ []) Hls).
    change (strip (lit "ls")) with (lit "ls").
    by rewrite <- !app_assoc.
  - exact Hls.
Qed.

End SessionFacts.

(** ** Attack detector *)

Section DetectorFacts.
Import AttackDetector.

(** C8. On the empty string [analyze_payload] reports nothing: no
    pattern of any of the four tables is found in it, each detector
    returns the empty list, and the analysis is not malicious, with no
    attack type and no detected pattern.  This holds whatever the Unicode
    tables say, as the empty string has no character to look up. *)
Theorem analyze_payload_empty
    (unicode_tolower : char → char) (unicode_isalnum : char → bool)
    (unicode_lower_ucs4 : str → nat → char → str) :
  analyze_payload unicode_tolower unicode_isalnum unicode_lower_ucs4 []
  = Some (mk_analysis false [] [])
  ∧ detect_sql_injection unicode_tolower unicode_isalnum unicode_lower_ucs4 []
    = Some []
  ∧ detect_xss unicode_tolower unicode_isalnum unicode_lower_ucs4 [] = Some []
  ∧ detect_path_traversal unicode_tolower unicode_isalnum [] = Some []
  ∧ detect_command_injection unicode_tolower unicode_isalnum [] = Some []
  ∧ (∀ pattern,
       In pattern (SQL_PATTERNS ++ XSS_PATTERNS ++ PATH_TRAVERSAL_PATTERNS
                   ++ COMMAND_INJECTION_PATTERNS) →
       Re.search unicode_tolower unicode_isalnum pattern [] = Some false).
Proof.
  repeat (split; [by vm_compute|]).
  intros pattern H. vm_compute in H.
  repeat (destruct H as [<-|H]; [by vm_compute|]). destruct H.
Qed.

End DetectorFacts.

(** * More properties *)

Section ShellMore.
Import FakeShell.

Ltac other_command :=
  match goal with
  | |- context [decide (?a = ?b)] =>
      destruct (decide (a = b)) as [E|_]; [by vm_compute in E|]
  end.

Lemma lstrip_blank s : blank s → lstrip s = [].
Proof. induction 1 as [|a s Ha _ IH]; simpl; [done|]. by rewrite Ha. Qed.

Lemma rstrip_nil_blank s : rstrip s = [] → blank s.
Proof.
  induction s as [|a s IH]; simpl; [constructor|].
  destruct (rstrip s) eqn:E; [|done].
  destruct (isspace a) eqn:Ha; [|done]. intros _. constructor; [done|by apply IH].
Qed.

Lemma split_acc_blank_tail w s :
  blank s → split_acc w s = match w with [] => [] | _ => [w] end.
Proof.
  intros H. revert w. induction H as [|a s Ha _ IH]; intros w; simpl; [done|].
  rewrite Ha. destruct w; by rewrite IH.
Qed.

Lemma split_acc_nil_inv s : ∀ w, split_acc w s = [] → w = [] ∧ blank s.
Proof.
  induction s as [|a s IH]; intros w; simpl.
  - destruct w; [|done]. intros _. split; [done|constructor].
  - destruct (isspace a) eqn:Ha.
    + destruct w; [|done]. intros H. destruct (IH [] H) as [_ Hs].
      split; [done|]. by constructor.
    + intros H. destruct (IH _ H) as [Hw _]. by destruct w.
Qed.

Lemma split_lstrip s : split (lstrip s) = split s.
Proof.
  unfold split. induction s as [|a s IH]; simpl; [done|].
  destruct (isspace a) eqn:Ha; [done|]. simpl. by rewrite Ha.
Qed.

Lemma split_acc_rstrip s : ∀ w, split_acc w (rstrip s) = split_acc w s.
Proof.
  induction s as [|a s IH]; intros w; simpl; [done|].
  destruct (rstrip s) as [|b t] eqn:E.
  - apply rstrip_nil_blank in E.
    destruct (isspace a) eqn:Ha; simpl; rewrite ?Ha.
    + rewrite !split_acc_blank_tail by done. by destruct w.
    + by rewrite !split_acc_blank_tail by done.
  - simpl. destruct (isspace a); [destruct w|]; by rewrite <- IH.
Qed.

Lemma split_strip s : split (strip s) = split s.
Proof. unfold strip, split. rewrite split_acc_rstrip. apply split_lstrip. Qed.

Lemma strip_nil_iff s : strip s = [] ↔ split s = [].
Proof.
  split.
  - intros H. by rewrite <- split_strip, H.
  - intros H. apply split_acc_nil_inv in H as [_ H].
    unfold strip. by rewrite lstrip_blank.
Qed.

(** The command line is read only through its words. *)
Lemma execute_command_split sh cmd :
  execute_command sh cmd
  = match split cmd with
    | [] => (Some [], sh)
    | command :: args => dispatch sh command args
    end.
Proof.
  unfold execute_command. rewrite split_strip.
  destruct (strip cmd) eqn:E.
  - apply strip_nil_iff in E. by rewrite E.
  - done.
Qed.

Lemma is_word_intro w :
  w ≠ [] → Forall (λ c, isspace c = false) w → is_word w = true.
Proof.
  intros Hne H. destruct w as [|a w]; [done|]. unfold is_word.
  apply forallb_forall. intros c Hc. apply list_elem_of_In in Hc.
  rewrite Forall_forall in H. by rewrite (H c Hc).
Qed.

Lemma split_acc_words s : ∀ w,
  Forall (λ c, isspace c = false) w → forallb is_word (split_acc w s) = true.
Proof.
  induction s as [|a s IH]; intros w Hw; cbn [split_acc].
  - destruct w as [|b w']; [done|]. cbn [forallb].
    by rewrite is_word_intro.
  - destruct (isspace a) eqn:Ha.
    + destruct w as [|b w']; [by apply IH|]. cbn [forallb].
      rewrite is_word_intro by done. by rewrite IH.
    + apply IH. apply Forall_app. split; [done|]. by constructor.
Qed.

Lemma filter_isspace_blank s : blank (List.filter isspace s).
Proof.
  induction s as [|a s IH]; simpl; [constructor|].
  destruct (isspace a) eqn:Ha; [by constructor|done].
Qed.

(** X1. [execute_command] reads a line through its words only: the line
    behaves as its words joined by single blanks, and a line made of
    white space alone returns the empty text and leaves the shell as it
    was. *)
Theorem execute_command_reads_words (sh : t) (cmd : str) :
  execute_command sh cmd = execute_command sh (join (lit " ") (split cmd))
  ∧ execute_command sh (List.filter isspace cmd) = (Some [], sh).
Proof.
  split.
  - rewrite !execute_command_split. change (lit " ") with [32%N].
    rewrite split_join; [done|]. by apply split_acc_words.
  - rewrite execute_command_split.
    pose proof (filter_isspace_blank cmd) as H.
    unfold split. by rewrite split_acc_blank_tail.
Qed.

Lemma set_cwd_same sh : set_cwd sh (cwd sh) = sh.
Proof. by destruct sh. Qed.

Lemma dispatch_frame sh command args :
  snd (dispatch sh command args)
  = if decide (command = lit "cd") then snd (_cmd_cd sh args) else sh.
Proof.
  unfold dispatch.
  destruct (decide (command = lit "cd")) as [->|Hcd].
  - do 5 other_command. by destruct (_cmd_cd sh args).
  - repeat (case_decide; [done|]). done.
Qed.

Lemma _cmd_cd_frame sh args :
  ∃ d, snd (_cmd_cd sh args) = set_cwd sh d.
Proof.
  unfold _cmd_cd. destruct args as [|p args]; [by eexists|].
  destruct (_ || _); [by eexists|]. exists (cwd sh). by rewrite set_cwd_same.
Qed.

(** X2. No command line changes the user name, the host name or the two
    tables of the shell; the shell changes at all only when the first
    word of the line is [cd]. *)
Theorem execute_command_only_moves_cwd (sh : t) (cmd : str) :
  let sh' := snd (execute_command sh cmd) in
  username sh' = username sh
  ∧ hostname sh' = hostname sh
  ∧ filesystem sh' = filesystem sh
  ∧ files sh' = files sh
  ∧ (if decide (head (split cmd) = Some (lit "cd")) then True else sh' = sh).
Proof.
  intros sh'. unfold sh'. rewrite execute_command_split.
  destruct (split cmd) as [|command args]; [by rewrite decide_False|].
  rewrite dispatch_frame. cbn [head].
  destruct (decide (command = lit "cd")) as [->|Hcd].
  - rewrite decide_True by done.
    destruct (_cmd_cd_frame sh args) as [d ->]. by destruct sh.
  - rewrite decide_False by congruence. done.
Qed.

(** X3. [execute_command] gives the signal to close the session exactly
    for the lines whose first word is [exit], arguments or not. *)
Theorem execute_command_exit_iff (sh : t) (cmd : str) :
  fst (execute_command sh cmd) = None ↔ head (split cmd) = Some (lit "exit").
Proof.
  rewrite execute_command_split.
  destruct (split cmd) as [|command args]; [done|]. cbn [head].
  split.
  - intros H. destruct (decide (command = lit "exit")) as [->|Hne]; [done|].
    exfalso. revert H. unfold dispatch.
    repeat case_decide; try done. by destruct (_cmd_cd sh args).
  - intros [= ->]. unfold dispatch. do 7 other_command.
    by rewrite decide_True.
Qed.

Lemma replace_pair_keeps_root s :
  startswith (lit "/") s = true →
  startswith (lit "/") (replace_pair 47%N (lit "/") s) = true.
Proof.
  intros [r ->]%startswith_inv. change (lit "/" ++ r) with (47%N :: r).
  destruct r as [|c r]; [done|]. rewrite replace_pair_step.
  rewrite decide_True by done. by destruct (decide (c = 47%N)).
Qed.

Lemma app_ne_self_l {A} (l k : list A) : k ≠ [] → l ≠ l ++ k.
Proof.
  intros Hk H. apply (f_equal (@length _)) in H. rewrite length_app in H.
  destruct k; [done|]. simpl in H. lia.
Qed.

(** The directory table of a fresh shell, key by key. *)
Lemma filesystem_init_is_Some username k :
  is_Some (filesystem (init username) !! k)
  ↔ k = lit "/" ∨ k = lit "/home" ∨ k = lit "/home/" ++ username
    ∨ k = lit "/home/" ++ username ++ lit "/documents"
    ∨ k = lit "/etc" ∨ k = lit "/var".
Proof.
  unfold init, dict. cbn [filesystem foldl fst snd].
  rewrite !lookup_insert_is_Some, lookup_empty, is_Some_alt.
  split.
  - intros [?|[_ [?|[_ [?|[_ [?|[_ [?|[_ [?|[_ []]]]]]]]]]]]]; subst; auto 10.
  - intros H.
    destruct (decide (lit "/var" = k)); [by left|right; split; [done|]].
    destruct (decide (lit "/etc" = k)); [by left|right; split; [done|]].
    destruct (decide (lit "/home/" ++ username ++ lit "/documents" = k));
      [by left|right; split; [done|]].
    destruct (decide (lit "/home/" ++ username = k)); [by left|right; split; [done|]].
    destruct (decide (lit "/home" = k)); [by left|right; split; [done|]].
    destruct (decide (lit "/" = k)); [by left|right; split; [done|]].
    destruct H as [?|[?|[?|[?|[?|?]]]]]; congruence.
Qed.

Lemma files_init_is_Some username k :
  is_Some (files (init username) !! k)
  ↔ k = lit "/etc/passwd" ∨ k = lit "/etc/hosts"
    ∨ k = lit "/home/" ++ username ++ lit "/.bash_history"
    ∨ k = lit "/home/" ++ username ++ lit "/documents/passwords.txt".
Proof.
  unfold init, dict. cbn [files foldl fst snd].
  rewrite !lookup_insert_is_Some, lookup_empty, is_Some_alt.
  split.
  - intros [?|[_ [?|[_ [?|[_ [?|[_ []]]]]]]]]; subst; auto 10.
  - intros H.
    destruct (decide (lit "/home/" ++ username ++ lit "/documents/passwords.txt" = k));
      [by left|right; split; [done|]].
    destruct (decide (lit "/home/" ++ username ++ lit "/.bash_history" = k));
      [by left|right; split; [done|]].
    destruct (decide (lit "/etc/hosts" = k)); [by left|right; split; [done|]].
    destruct (decide (lit "/etc/passwd" = k)); [by left|right; split; [done|]].
    destruct H as [?|[?|[?|?]]]; congruence.
Qed.

Lemma startswith_home_root s :
  startswith (lit "/home/") s = true → startswith (lit "/") s = true.
Proof. intros [r ->]%startswith_inv. done. Qed.

Lemma shell_inv_step username sh cmd :
  shell_inv username sh → shell_inv username (snd (execute_command sh cmd)).
Proof.
  intros (Hu & Hh & Hfs & Hf & Hroot & Hdir).
  rewrite execute_command_split.
  destruct (split cmd) as [|command args]; [done|].
  rewrite dispatch_frame. case_decide; [|done].
  unfold _cmd_cd. destruct args as [|p args]; cbn [snd].
  - repeat split; try done; cbn [cwd set_cwd].
    + right. apply startswith_app.
  - set (target := if startswith (lit "/") p then p else _).
    destruct (bool_decide (is_Some (filesystem sh !! target))) eqn:Hd;
      destruct (startswith (lit "/home/") target) eqn:Hhome; cbn [orb snd];
      try done; (repeat split; try done; cbn [cwd set_cwd filesystem]);
      try (by apply startswith_home_root); try (by right);
      try (left; by apply bool_decide_eq_true in Hd).
    all: unfold target in *; destruct (startswith (lit "/") p) eqn:Hp; [done|];
      by apply replace_pair_keeps_root; destruct (cwd sh).
Qed.

(** X4. Along any run of commands [cwd] stays absolute and is a listed
    directory or a path under [/home/]; the tables never change. *)
Theorem run_commands_keeps_shell_sound (username : str) (lines : list str) :
  let sh := run_commands (init username) lines in
  FakeShell.username sh = username
  ∧ filesystem sh = filesystem (init username)
  ∧ files sh = files (init username)
  ∧ startswith (lit "/") (cwd sh) = true
  ∧ (is_Some (filesystem sh !! cwd sh) ∨ startswith (lit "/home/") (cwd sh) = true).
Proof.
  assert (H : ∀ sh, shell_inv username sh →
                    shell_inv username (run_commands sh lines)).
  { induction lines as [|l lines IH]; intros sh Hsh; [done|].
    cbn [run_commands foldl]. apply IH. by apply shell_inv_step. }
  destruct (H (init username)) as (? & ? & ? & ? & ? & ?); [|done].
  repeat split; try done.
  right. cbn [cwd init]. apply startswith_app.
Qed.

Lemma rstrip_char_cons_ne c a s : a ≠ c → rstrip_char c (a :: s) = a :: rstrip_char c s.
Proof. intros Ha. simpl. destruct (rstrip_char c s); by rewrite ?decide_False. Qed.

Lemma rstrip_char_cons_keep c a s :
  rstrip_char c s ≠ [] → rstrip_char c (a :: s) = a :: rstrip_char c s.
Proof. intros H. simpl. by destruct (rstrip_char c s). Qed.

Lemma or_root_nonempty (s : str) :
  s ≠ [] → (if s is [] then lit "/" else s) = s.
Proof. by destruct s. Qed.

Lemma filesystem_init_home username :
  filesystem (init username) !! (lit "/home/" ++ username)
  = Some [lit "documents"; lit "downloads"; lit ".bash_history"; lit ".ssh"].
Proof.
  unfold init, dict. cbn [filesystem foldl fst snd].
  rewrite lookup_insert_ne by (intros E; by vm_compute in E).
  rewrite lookup_insert_ne by (intros E; by vm_compute in E).
  rewrite lookup_insert_ne.
  2:{ intros E. apply app_inv_head in E. symmetry in E.
      by apply app_ne_self_l in E. }
  apply lookup_insert_eq.
Qed.

Lemma filesystem_init_documents username :
  filesystem (init username) !! (lit "/home/" ++ username ++ lit "/documents")
  = Some [lit "passwords.txt"; lit "notes.txt"].
Proof.
  unfold init, dict. cbn [filesystem foldl fst snd].
  rewrite lookup_insert_ne by (intros E; by vm_compute in E).
  rewrite lookup_insert_ne by (intros E; by vm_compute in E).
  apply lookup_insert_eq.
Qed.

Lemma filesystem_init_root username :
  filesystem (init username) !! lit "/"
  = Some [lit "bin"; lit "etc"; lit "home"; lit "var"; lit "usr"; lit "tmp"].
Proof.
  unfold init, dict. cbn [filesystem foldl fst snd].
  do 5 (rewrite lookup_insert_ne by (intros E; by vm_compute in E)).
  apply lookup_insert_eq.
Qed.

Lemma files_init_history username :
  files (init username) !! (lit "/home/" ++ username ++ lit "/.bash_history")
  = Some (lit "ls -la" ++ [LF] ++ lit "cd documents" ++ [LF]
          ++ lit "cat passwords.txt" ++ [LF] ++ lit "exit" ++ [LF]).
Proof.
  unfold init, dict. cbn [files foldl fst snd].
  rewrite lookup_insert_ne.
  2:{ intros E. apply app_inv_head in E. apply app_inv_head in E.
      by vm_compute in E. }
  apply lookup_insert_eq.
Qed.

Lemma dispatch_whoami sh args : dispatch sh (lit "whoami") args = (Some (username sh), sh).
Proof. unfold dispatch. do 2 other_command. by rewrite decide_True. Qed.

(** X5. Whatever name the client logged in with, as long as it is not
    empty and does not end in a slash, the fresh shell answers [pwd] with
    [/home/<name>], [whoami] with the name, [ls] and [ls documents] with
    the configured entries, and [cat .bash_history] with the stored
    history. *)
Theorem first_commands_after_login
    (username : str) (Hne : username ≠ []) (Hslash : last username ≠ Some 47%N) :
  let sh := init username in
  execute_command sh (lit "pwd") = (Some (lit "/home/" ++ username), sh)
  ∧ execute_command sh (lit "whoami") = (Some username, sh)
  ∧ execute_command sh (lit "ls")
    = (Some (lit "documents  downloads  .bash_history  .ssh"), sh)
  ∧ execute_command sh (lit "ls documents")
    = (Some (lit "passwords.txt  notes.txt"), sh)
  ∧ execute_command sh (lit "cat .bash_history")
    = (Some (lit "ls -la" ++ [LF] ++ lit "cd documents" ++ [LF]
             ++ lit "cat passwords.txt" ++ [LF] ++ lit "exit" ++ [LF]), sh).
Proof.
  intros sh. unfold sh. clear sh.
  assert (Hlast : ∃ x, last (lit "/home/" ++ username) = Some x ∧ x ≠ 47%N).
  { rewrite last_app. destruct (last username) as [x|] eqn:E.
    - exists x. split; [done|]. congruence.
    - by apply last_None in E. }
  destruct Hlast as (x & Hx & Hx47).
  split; [|split; [|split; [|split]]].
  - change (lit "pwd") with (join (lit " ") [lit "pwd"]).
    rewrite execute_command_words by done. apply dispatch_pwd.
  - change (lit "whoami") with (join (lit " ") [lit "whoami"]).
    rewrite execute_command_words by done. apply dispatch_whoami.
  - change (lit "ls") with (join (lit " ") [lit "ls"]).
    rewrite execute_command_words by done. rewrite dispatch_ls.
    unfold _cmd_ls. change (cwd (init username)) with (lit "/home/" ++ username).
    rewrite (rstrip_char_last _ _ x) by done.
    rewrite or_root_nonempty by done.
    by rewrite filesystem_init_home.
  - change (lit "ls documents") with (join (lit " ") [lit "ls"; lit "documents"]).
    rewrite execute_command_words by done. rewrite dispatch_ls.
    unfold _cmd_ls.
    change (startswith (lit "-") (lit "documents")) with false.
    change (startswith (lit "/") (lit "documents")) with false.
    cbn [negb]. change (cwd (init username)) with (lit "/home/" ++ username).
    rewrite (rstrip_char_last _ _ 115%N);
      [|by rewrite !last_app|done].
    rewrite or_root_nonempty by done. rewrite <- app_assoc.
    by rewrite filesystem_init_documents.
  - change (lit "cat .bash_history")
      with (join (lit " ") [lit "cat"; lit ".bash_history"]).
    rewrite execute_command_words by done. rewrite dispatch_cat.
    unfold _cmd_cat.
    change (startswith (lit "/") (lit ".bash_history")) with false.
    change (cwd (init username)) with (lit "/home/" ++ username).
    rewrite <- app_assoc.
    by rewrite files_init_history.
Qed.

Lemma first_commands_after_login_witness :
  execute_command (init (lit "admin")) (lit "ls")
  = (Some (lit "documents  downloads  .bash_history  .ssh"), init (lit "admin")).
Proof.
  refine (proj1 (proj2 (proj2 (first_commands_after_login (lit "admin") _ _)))).
  - done.
  - by vm_compute.
Defined.

Lemma cd_root username :
  execute_command (init username) (lit "cd /")
  = (Some [], set_cwd (init username) (lit "/")).
Proof.
  change (lit "cd /") with (join (lit " ") [lit "cd"; lit "/"]).
  rewrite execute_command_words by done. rewrite dispatch_cd.
  unfold _cmd_cd. change (startswith (lit "/") (lit "/")) with true. cbv iota.
  rewrite bool_decide_eq_true_2; [done|].
  apply filesystem_init_is_Some. by left.
Qed.

(** X6. At the root, relative operands of [ls] and [cat] never resolve,
    though [cd] with the same operand does. *)
Theorem root_relative_operands_miss
    (username p : str)
    (Hword : is_word p = true)
    (Hrel : startswith (lit "/") p = false)
    (Hflag : startswith (lit "-") p = false) :
  let sh := snd (execute_command (init username) (lit "cd /")) in
  cwd sh = lit "/"
  ∧ execute_command sh (join (lit " ") [lit "ls"; p])
    = (Some (lit "ls: cannot access '//" ++ rstrip_char 47%N p
             ++ lit "': No such file or directory"), sh)
  ∧ execute_command sh (join (lit " ") [lit "cat"; p])
    = (Some (lit "cat: " ++ p ++ lit ": No such file or directory"), sh)
  ∧ execute_command sh (lit "cd etc") = (Some [], set_cwd sh (lit "/etc"))
  ∧ execute_command sh (lit "ls etc")
    = (Some (lit "ls: cannot access '//etc': No such file or directory"), sh).
Proof.
  intros sh. unfold sh. rewrite cd_root. cbn [snd]. clear sh.
  set (sh := set_cwd (init username) (lit "/")).
  assert (Hmiss : ∀ q, filesystem sh !! (47%N :: 47%N :: q) = None).
  { intros q. apply eq_None_not_Some. intros H.
    apply (filesystem_init_is_Some username) in H.
    destruct H as [H|[H|[H|[H|[H|H]]]]]; by vm_compute in H. }
  assert (Hls : ∀ q, is_word q = true → startswith (lit "/") q = false →
                     startswith (lit "-") q = false →
    execute_command sh (join (lit " ") [lit "ls"; q])
    = (Some (lit "ls: cannot access '//" ++ rstrip_char 47%N q
             ++ lit "': No such file or directory"), sh)).
  { intros q Hq Hq1 Hq2.
    rewrite execute_command_words by (by apply words_cons; [|apply words_cons]).
    rewrite dispatch_ls. unfold _cmd_ls. rewrite Hq2, Hq1. cbn [negb cwd sh set_cwd].
    destruct q as [|q0 q]; [done|].
    assert (q0 ≠ 47%N).
    { intros ->. by vm_compute in Hq1. }
    change (lit "/" ++ lit "/" ++ q0 :: q) with (47%N :: 47%N :: q0 :: q).
    assert (H1 : rstrip_char 47%N (q0 :: q) ≠ [])
      by (by rewrite rstrip_char_cons_ne).
    assert (H2 : rstrip_char 47%N (47%N :: q0 :: q) = 47%N :: rstrip_char 47%N (q0 :: q))
      by (by apply rstrip_char_cons_keep).
    rewrite (rstrip_char_cons_keep _ _ (47%N :: q0 :: q)) by (by rewrite H2).
    rewrite H2. by rewrite Hmiss. }
  split; [done|]. split; [by apply Hls|]. split; [|split].
  - rewrite execute_command_words by (by apply words_cons; [|apply words_cons]).
    rewrite dispatch_cat. unfold _cmd_cat. rewrite Hrel.
    destruct (files sh !! (cwd sh ++ lit "/" ++ p)) eqn:E; [|done].
    assert (is_Some (files (init username) !! (lit "/" ++ lit "/" ++ p))) as H by eauto.
    apply files_init_is_Some in H.
    destruct H as [H|[H|[H|H]]]; by vm_compute in H.
  - change (lit "cd etc") with (join (lit " ") [lit "cd"; lit "etc"]).
    rewrite execute_command_words by done. rewrite dispatch_cd.
    unfold _cmd_cd. change (startswith (lit "/") (lit "etc")) with false.
    cbv iota. cbn [cwd sh set_cwd].
    change (replace_pair 47%N (lit "/") (lit "/" ++ lit "/" ++ lit "etc"))
      with (lit "/etc").
    rewrite bool_decide_eq_true_2; [done|].
    apply (filesystem_init_is_Some username). auto 10.
  - by apply (Hls (lit "etc")).
Qed.

Lemma root_relative_operands_miss_witness :
  let sh := snd (execute_command (init (lit "root")) (lit "cd /")) in
  execute_command sh (lit "cat etc/passwd")
  = (Some (lit "cat: etc/passwd: No such file or directory"), sh).
Proof.
  exact (proj1 (proj2 (proj2 (root_relative_operands_miss (lit "root")
           (lit "etc/passwd") eq_refl eq_refl eq_refl)))).
Defined.
End ShellMore.

Section StripMore.

Lemma lstrip_cases s :
  lstrip s = [] ∨ ∃ a, head (lstrip s) = Some a ∧ isspace a = false.
Proof.
  induction s as [|a s IH]; simpl; [by left|].
  destruct (isspace a) eqn:Ha; [done|]. right. by exists a.
Qed.

Lemma rstrip_cons a s : rstrip (a :: s) = [] ∨ rstrip (a :: s) = a :: rstrip s.
Proof.
  simpl. destruct (rstrip s); [|by right].
  destruct (isspace a); [by left|by right].
Qed.

Lemma rstrip_cases s :
  rstrip s = [] ∨ ∃ c, last (rstrip s) = Some c ∧ isspace c = false.
Proof.
  induction s as [|a s IH]; simpl; [by left|].
  destruct (rstrip s) as [|b t] eqn:E.
  - destruct (isspace a) eqn:Ha; [by left|]. right. by exists a.
  - right. destruct IH as [|(c & Hc & Hs)]; [done|]. exists c. split; [|done].
    by rewrite last_cons, Hc.
Qed.

Lemma strip_idemp s : strip (strip s) = strip s.
Proof.
  unfold strip at 2 3.
  destruct (rstrip (lstrip s)) as [|a t] eqn:E; [done|].
  assert (Ha : isspace a = false).
  { destruct (lstrip_cases s) as [H|(a' & Ha' & Hs)]; [by rewrite H in E|].
    destruct (lstrip s) as [|a'' l]; [done|]. simpl in Ha'. injection Ha' as ->.
    destruct (rstrip_cons a' l) as [H|H]; rewrite H in E; [done|].
    by injection E as -> _. }
  destruct (rstrip_cases (lstrip s)) as [H|(c & Hc & Hs)]; [by rewrite H in E|].
  rewrite E in Hc. unfold strip.
  rewrite (lstrip_head _ a) by done. by apply (rstrip_last _ c).
Qed.

End StripMore.

Section SessionMore.
Import Session.

Lemma execute_command_None_iff sh cmd :
  fst (FakeShell.execute_command sh cmd) = None ↔ is_exit_line cmd.
Proof.
  unfold is_exit_line. rewrite execute_command_split.
  destruct (split cmd) as [|command args]; [done|]. cbn [head].
  split.
  - intros H. destruct (decide (command = lit "exit")) as [->|Hne]; [done|].
    exfalso. revert H. unfold FakeShell.dispatch.
    repeat case_decide; try done. by destruct (FakeShell._cmd_cd sh args).
  - intros [= ->]. by vm_compute.
Qed.

Lemma is_exit_line_strip line : is_exit_line (strip line) ↔ is_exit_line line.
Proof. unfold is_exit_line. by rewrite split_strip. Qed.

Lemma send_cases text s rest :
  (∃ ch, Channel.send text (channel s) = Some ch
         ∧ Channel.closed ch = Channel.closed (channel s)
         ∧ send text s rest = rest (mk (shell s) (commands s) (buffer s) ch))
  ∨ send text s rest = Raise s.
Proof.
  unfold send, Channel.send.
  destruct (Channel.link (channel s)) as [[|k]|]; [by right| |]; left; by eexists.
Qed.

Lemma on_char_step c s : step_ok s (on_char c s).
Proof.
  unfold on_char.
  destruct (decide (c = CR ∨ c = LF)) as [_|_].
  - destruct (strip (buffer s)) as [|l0 l] eqn:E.
    + destruct (send_cases (FakeShell.get_prompt (shell s)) s Next)
        as [(ch & _ & Hc & ->)| -> ]; unfold step_ok; cbn; auto.
    + destruct (FakeShell.execute_command (shell s) (buffer s)) as [result sh] eqn:Ex.
      assert (Hexit : result = None ↔ is_exit_line (strip (buffer s))).
      { rewrite is_exit_line_strip, <- execute_command_None_iff. by rewrite Ex. }
      rewrite <- E in *. assert (Hne : strip (buffer s) ≠ []) by (by rewrite E).
      destruct result as [result|].
      * assert (Hno : ¬ is_exit_line (strip (buffer s))) by (by rewrite <- Hexit).
        set (s1 := mk sh (commands s ++ [strip (buffer s)]) (buffer s) (channel s)).
        assert (Hp : ∀ s2, commands s2 = commands s1 →
                           Channel.closed (channel s2) = Channel.closed (channel s) →
                     step_ok s (send (FakeShell.get_prompt (shell s2)) s2
                                  (λ s, Next (set_buffer s [])))).
        { intros s2 H1 H2.
          destruct (send_cases (FakeShell.get_prompt (shell s2)) s2
                      (λ s, Next (set_buffer s [])))
            as [(ch & _ & Hc & ->)| -> ]; unfold step_ok; cbn; rewrite ?H1, ?Hc, ?H2;
            auto. }
        destruct result as [|r0 r]; [by apply Hp|].
        destruct (send_cases ([CR; LF] ++ (r0 :: r) ++ [CR; LF]) s1
                    (λ s, send (FakeShell.get_prompt (shell s)) s
                            (λ s, Next (set_buffer s []))))
          as [(ch & _ & Hc & ->)| -> ]; [by apply Hp|].
        unfold step_ok; cbn; auto.
      * assert (Hyes : is_exit_line (strip (buffer s))) by (by apply Hexit).
        match goal with |- step_ok s (send ?t ?s1 ?r) =>
          destruct (send_cases t s1 r) as [(ch & _ & Hc & ->)| -> ] end;
          unfold step_ok; cbn; auto.
  - destruct (decide (c = DEL)) as [_|_].
    + destruct (buffer s) eqn:E; [unfold step_ok; cbn; auto|].
      match goal with |- step_ok s (send ?t ?s1 ?r) =>
        destruct (send_cases t s1 r) as [(ch & _ & Hc & ->)| -> ] end;
        unfold step_ok; cbn; auto.
    + destruct (decide (c = ETX)) as [_|_].
      * match goal with |- step_ok s (send ?t ?s1 ?r) =>
          destruct (send_cases t s1 r) as [(ch & _ & Hc & ->)| -> ] end;
          [|unfold step_ok; cbn; auto].
        match goal with |- step_ok s (send ?t ?s1 ?r) =>
          destruct (send_cases t s1 r) as [(ch' & _ & Hc' & ->)| -> ] end;
          unfold step_ok; cbn; rewrite ?Hc'; auto.
      * match goal with |- step_ok s (send ?t ?s1 ?r) =>
          destruct (send_cases t s1 r) as [(ch & _ & Hc & ->)| -> ] end;
          unfold step_ok; cbn; auto.
Qed.

Lemma advanced_refl s : advanced Going s s.
Proof. exists []. rewrite app_nil_r. by repeat split. Qed.

Lemma advanced_trans k s s1 s2 :
  advanced Going s s1 → advanced k s1 s2 → advanced k s s2.
Proof.
  intros (a1 & H1 & G1 & C1 & E1) (a2 & H2 & G2 & K).
  exists (a1 ++ a2). rewrite H2, H1, <- app_assoc. split; [done|].
  split; [by apply Forall_app|]. destruct k.
  - destruct K as [C2 E2]. split; [congruence|]. by apply Forall_app.
  - destruct K as (C2 & pre & l & -> & Hl & Hpre). split; [done|].
    exists (a1 ++ pre), l. rewrite <- app_assoc. split; [done|].
    split; [done|]. by apply Forall_app.
  - destruct K as [C2 E2]. split; [congruence|].
    destruct a2 as [|x a2] using rev_ind.
    + rewrite app_nil_r. clear -E1. induction E1 as [|y a1 Hy _ IH]; [done|].
      destruct a1; [constructor|]. constructor; [done|]. exact IH.
    + rewrite removelast_last in E2. rewrite app_assoc, removelast_last.
      by apply Forall_app.
Qed.

Lemma on_char_advanced c s :
  advanced (flow_progress (on_char c s)) s (flow_state (on_char c s)).
Proof.
  pose proof (on_char_step c s) as H. unfold step_ok in H.
  assert (Hline : strip (buffer s) ≠ [] → stripped_line (strip (buffer s))).
  { intros ?. split; [done|apply strip_idemp]. }
  destruct (on_char c s) as [s'|s'|s']; cbn [flow_state flow_progress] in *.
  - destruct H as [Hc [Hh|(Hh & Hne & Hno)]].
    + exists []. rewrite app_nil_r. by repeat split.
    + exists [strip (buffer s)]. repeat split; auto.
  - destruct H as (Hc & Hh & Hne & Hyes).
    exists [strip (buffer s)]. repeat split; auto. by exists [], (strip (buffer s)).
  - destruct H as [Hc [Hh|(Hh & Hne)]].
    + exists []. rewrite app_nil_r. by repeat split.
    + exists [strip (buffer s)]. repeat split; auto.
Qed.

Lemma for_chars_advanced data : ∀ s,
  advanced (flow_progress (for_chars data s)) s (flow_state (for_chars data s)).
Proof.
  induction data as [|c data IH]; intros s; cbn [for_chars].
  { apply advanced_refl. }
  pose proof (on_char_advanced c s) as H.
  destruct (on_char c s) as [s1|s1|s1]; cbn [flow_state flow_progress] in *;
    [|done|done].
  eapply advanced_trans; [exact H|apply IH].
Qed.

Lemma interact_advanced rounds : ∀ s,
  Channel.closed (channel s) = false →
  advanced (end_progress (interact rounds s)) s (end_state (interact rounds s)).
Proof.
  induction rounds as [|r rounds IH]; intros s Hopen; cbn [interact].
  { apply advanced_refl. }
  set (s0 := mk (shell s) (commands s) (buffer s)
               (Channel.mk (Channel.sent (channel s)) (Channel.closed (channel s))
                  (link r))).
  assert (H0 : advanced Going s s0).
  { exists []. rewrite app_nil_r. by repeat split. }
  assert (Hbody : ∀ o, advanced (flow_progress o) s0 (flow_state o) →
    let e := match o with
             | Raise s' => Raised s'
             | Next s' | Break s' =>
                 if Channel.active (channel s') then interact rounds s'
                 else Finished s'
             end in
    advanced (end_progress e) s (end_state e)).
  { intros [s'|s'|s'] H e; unfold e; cbn [flow_progress flow_state] in H.
    - assert (Hcl : Channel.closed (channel s') = false).
      { destruct H as (added & _ & _ & Hc & _). by rewrite Hc. }
      destruct (Channel.active (channel s')) eqn:Hact.
      + eapply advanced_trans; [eapply advanced_trans; [exact H0|exact H]|].
        by apply IH.
      + cbn [end_progress end_state]. rewrite Hcl.
        eapply advanced_trans; [exact H0|exact H].
    - assert (Hcl : Channel.closed (channel s') = true).
      { by destruct H as (added & _ & _ & Hc & _). }
      unfold Channel.active. rewrite Hcl. cbn [negb andb end_progress end_state].
      rewrite Hcl. eapply advanced_trans; [exact H0|exact H].
    - cbn [end_progress end_state]. eapply advanced_trans; [exact H0|exact H]. }
  destruct (incoming r) as [data|].
  - apply Hbody. apply for_chars_advanced.
  - apply (Hbody (Next s0)). apply advanced_refl.
Qed.

Lemma interact_app more rounds : ∀ s,
  interact (rounds ++ more) s
  = match interact rounds s with
    | Pending s' => interact more s'
    | e => e
    end.
Proof.
  induction rounds as [|r rounds IH]; intros s; [done|].
  cbn [app interact].
  destruct (match incoming r with Some _ => _ | None => _ end) as [s'|s'|s'];
    [| |done]; destruct (Channel.active (channel s')); by rewrite ?IH.
Qed.

(** X7. The history of a session holds only lines that are not blank and
    carry no white space at either end, and further input only adds to
    it. *)
Theorem history_holds_stripped_lines
    (ip username : str) (rounds more : list round) :
  let history := commands (end_state (last (handle_client ip username rounds))) in
  let later :=
    commands (end_state (last (handle_client ip username (rounds ++ more)))) in
  Forall (λ line, line ≠ [] ∧ strip line = line) history
  ∧ history `prefix_of` later.
Proof.
  intros history later. unfold history, later, handle_client. clear history later.
  set (s0 := mk _ [] [] _).
  assert (Hlast : ∀ rs, last match interact rs s0 with
                | Finished s => mk_outcome true [mk_entry ip username (commands s)]
                                  (interact rs s0)
                | Raised s => mk_outcome true [] (interact rs s0)
                | Pending s => mk_outcome false [] (interact rs s0)
                end = interact rs s0) by (intros rs; by destruct (interact rs s0)).
  rewrite !Hlast.
  pose proof (interact_advanced rounds s0 eq_refl) as (added & H & G & K).
  cbn [commands s0 app] in H. split; [by rewrite H|].
  rewrite interact_app.
  destruct (interact rounds s0) as [s'|s'|s'] eqn:E; [done|done|].
  cbn [end_progress end_state] in *. destruct K as [Hcl _].
  destruct (interact_advanced more s' Hcl) as (added' & H' & _).
  rewrite H'. by exists added'.
Qed.

(** X8. An exit line can only be the last entry of a history; it is there
    when the session was closed by [exit], and while the session goes on,
    or after a hang-up, no entry is an exit line. *)
Theorem exit_line_only_ends_history
    (ip username : str) (rounds : list round) :
  let o := handle_client ip username rounds in
  let history := commands (end_state (last o)) in
  Forall (λ l, ¬ is_exit_line l) (removelast history)
  ∧ match last o with
    | Finished s =>
        if Channel.closed (channel s)
        then ∃ l, list.last history = Some l ∧ is_exit_line l
        else Forall (λ l, ¬ is_exit_line l) history
    | Pending _ => Forall (λ l, ¬ is_exit_line l) history
    | Raised _ => True
    end.
Proof.
  intros o history. unfold history, o, handle_client. clear o history.
  set (s0 := mk _ [] [] _).
  pose proof (interact_advanced rounds s0 eq_refl) as (added & H & G & K).
  cbn [commands s0 app] in H.
  assert (Hlast : last match interact rounds s0 with
                | Finished s => mk_outcome true [mk_entry ip username (commands s)]
                                  (interact rounds s0)
                | Raised s => mk_outcome true [] (interact rounds s0)
                | Pending s => mk_outcome false [] (interact rounds s0)
                end = interact rounds s0) by (by destruct (interact rounds s0)).
  rewrite Hlast. rewrite H.
  destruct (interact rounds s0) as [s'|s'|s']; cbn [end_progress end_state] in *.
  - destruct (Channel.closed (channel s')) eqn:Hcl.
    + destruct K as (_ & pre & l & -> & Hl & Hpre).
      rewrite removelast_last. split; [done|]. exists l.
      by rewrite last_snoc.
    + destruct K as [_ K]. split; [|done].
      clear -K. induction K as [|y a Hy _ IH]; [done|].
      destruct a; [constructor|]. constructor; [done|exact IH].
  - by destruct K.
  - destruct K as [_ K]. split; [|done].
    clear -K. induction K as [|y a Hy _ IH]; [done|].
    destruct a; [constructor|]. constructor; [done|exact IH].
Qed.

Lemma for_chars_app d2 d1 : ∀ s,
  for_chars (d1 ++ d2) s
  = match for_chars d1 s with
    | Next s' => for_chars d2 s'
    | stop => stop
    end.
Proof.
  induction d1 as [|c d1 IH]; intros s; [done|]. cbn [app for_chars].
  destruct (on_char c s); by rewrite ?IH.
Qed.

Lemma on_char_etx sh cmds b sent closed :
  on_char ETX (mk sh cmds b (Channel.mk sent closed None))
  = Next (mk sh cmds []
            (Channel.mk (sent ++ [lit "^C" ++ [CR; LF]; FakeShell.get_prompt sh])
               closed None)).
Proof.
  unfold on_char. rewrite decide_False by (by intros [?|?]).
  rewrite decide_False by done. rewrite decide_True by done.
  unfold send, set_buffer. cbn. by rewrite <- app_assoc.
Qed.

Lemma on_char_newline_blank c sh cmds b sent closed :
  c = CR ∨ c = LF → strip b = [] →
  on_char c (mk sh cmds b (Channel.mk sent closed None))
  = Next (mk sh cmds b (Channel.mk (sent ++ [FakeShell.get_prompt sh]) closed None)).
Proof.
  intros Hc Hb. unfold on_char. rewrite decide_True by done.
  cbn [buffer]. by rewrite Hb.
Qed.

Lemma on_char_newline_line c sh sh' cmds b sent closed out :
  c = CR ∨ c = LF → strip b ≠ [] →
  FakeShell.execute_command sh b = (Some out, sh') →
  on_char c (mk sh cmds b (Channel.mk sent closed None))
  = Next (mk sh' (cmds ++ [strip b]) []
            (Channel.mk
               (sent ++ (if out is [] then [] else [[CR; LF] ++ out ++ [CR; LF]])
                ++ [FakeShell.get_prompt sh'])
               closed None)).
Proof.
  intros Hc Hb Hout. unfold on_char. rewrite decide_True by done.
  cbn [buffer shell commands channel].
  destruct (strip b) eqn:E; [done|]. rewrite Hout.
  destruct out; unfold send, set_buffer; cbn; [done|].
  by rewrite <- app_assoc.
Qed.

(** X10. An interrupt throws the pending input away: whatever was typed
    is neither recorded nor run, also when a return follows. *)
Theorem interrupt_discards_pending_input
    (sh : FakeShell.t) (cmds : list str) (b : str) (sent : list str) :
  for_chars [ETX; CR] (mk sh cmds b (Channel.mk sent false None))
  = Next (mk sh cmds []
            (Channel.mk
               (sent ++ [lit "^C" ++ [CR; LF]; FakeShell.get_prompt sh;
                         FakeShell.get_prompt sh])
               false None)).
Proof.
  cbn [for_chars]. rewrite on_char_etx.
  rewrite on_char_newline_blank by (by try left).
  by rewrite <- app_assoc.
Qed.

(** X11. A line ended by carriage return and line feed is answered with
    the prompt twice: the line feed finds the buffer empty. *)
Theorem crlf_prompts_twice
    (sh sh' : FakeShell.t) (cmds : list str) (b out : str) (sent : list str)
    (Hline : strip b ≠ [])
    (Hrun : FakeShell.execute_command sh b = (Some out, sh')) :
  for_chars [CR; LF] (mk sh cmds b (Channel.mk sent false None))
  = Next (mk sh' (cmds ++ [strip b]) []
            (Channel.mk
               (sent ++ (if out is [] then [] else [[CR; LF] ++ out ++ [CR; LF]])
                ++ [FakeShell.get_prompt sh'; FakeShell.get_prompt sh'])
               false None)).
Proof.
  cbn [for_chars].
  rewrite (on_char_newline_line CR sh sh' _ _ _ _ out) by (by try left).
  rewrite on_char_newline_blank by (by try right).
  by rewrite <- !app_assoc.
Qed.

Lemma crlf_prompts_twice_witness :
  for_chars [CR; LF]
    (mk (FakeShell.init (lit "root")) [] (lit "whoami") (Channel.mk [] false None))
  = Next (mk (FakeShell.init (lit "root")) [lit "whoami"] []
            (Channel.mk
               [[CR; LF] ++ lit "root" ++ [CR; LF];
                lit "root@ubuntu-server:/home/root$ ";
                lit "root@ubuntu-server:/home/root$ "]
               false None)).
Proof.
  refine (crlf_prompts_twice (FakeShell.init (lit "root")) (FakeShell.init (lit "root"))
            [] (lit "whoami") (lit "root") [] _ _).
  - by vm_compute.
  - by vm_compute.
Defined.

Lemma removelast_take {A} (l : list A) : removelast l = take (length l - 1) l.
Proof.
  induction l as [|a l IH]; [done|]. destruct l as [|b l]; [done|].
  change (removelast (a :: b :: l)) with (a :: removelast (b :: l)).
  rewrite IH. simpl. by rewrite Nat.sub_0_r.
Qed.

(** X12. [k] backspaces remove the last [k] characters of the buffer, all
    of it when it holds fewer, and each removal is answered with
    backspace, blank, backspace. *)
Theorem backspaces_erase_last_characters
    (sh : FakeShell.t) (cmds : list str) (k : nat) (b : str) (sent : list str) :
  for_chars (repeat DEL k) (mk sh cmds b (Channel.mk sent false None))
  = Next (mk sh cmds (take (length b - k) b)
            (Channel.mk (sent ++ repeat [BS; 32%N; BS] (min k (length b)))
               false None)).
Proof.
  revert b sent. induction k as [|k IH]; intros b sent.
  { cbn [repeat for_chars]. rewrite Nat.sub_0_r, take_ge by lia.
    by rewrite app_nil_r. }
  cbn [repeat for_chars]. destruct b as [|a b].
  - assert (H : on_char DEL (mk sh cmds [] (Channel.mk sent false None))
                = Next (mk sh cmds [] (Channel.mk sent false None))).
    { unfold on_char. rewrite decide_False by (by intros [?|?]).
      by rewrite decide_True. }
    rewrite H, IH. cbn. by rewrite Nat.min_0_r.
  - rewrite on_char_del, IH. rewrite removelast_take.
    rewrite length_take. cbn [length].
    replace (S (length b) - 1)%nat with (length b) by lia.
    rewrite Nat.min_l by lia. rewrite take_take.
    replace (S (length b) - S k)%nat with (length b - k)%nat by lia.
    rewrite Nat.min_l by lia.
    replace (min (S k) (S (length b))) with (S (min k (length b))) by lia.
    cbn [repeat]. by rewrite <- app_assoc.
Qed.

Lemma decode_ascii d1 : ∀ d2,
  Forall (λ b, (b < 128)%N) d1 →
  decode_utf8_ignore (d1 ++ d2) = d1 ++ decode_utf8_ignore d2.
Proof.
  induction d1 as [|b d1 IH]; intros d2 H; [done|].
  inversion H as [|? ? Hb Hd]; subst. cbn [app decode_utf8_ignore].
  apply N.ltb_lt in Hb. rewrite Hb. by rewrite IH.
Qed.

Lemma decode_ascii_only d :
  Forall (λ b, (b < 128)%N) d → decode_utf8_ignore d = d.
Proof.
  intros H. rewrite <- (app_nil_r d) at 1. rewrite decode_ascii by done.
  by rewrite app_nil_r.
Qed.

Lemma on_char_keeps_link c s s' :
  on_char c s = Next s' → Channel.link (channel s) = None →
  Channel.link (channel s') = None
  ∧ Channel.closed (channel s') = Channel.closed (channel s).
Proof.
  intros H Hl. revert H. unfold on_char, send, Channel.send.
  repeat (cbn [channel shell commands buffer set_buffer Channel.link Channel.closed];
          first [rewrite Hl | case_decide | case_match]);
    try done; by intros [= <-].
Qed.

Lemma for_chars_keeps_link d : ∀ s s',
  for_chars d s = Next s' → Channel.link (channel s) = None →
  Channel.link (channel s') = None
  ∧ Channel.closed (channel s') = Channel.closed (channel s).
Proof.
  induction d as [|c d IH]; intros s s'; cbn [for_chars].
  { by intros [= <-]. }
  destruct (on_char c s) as [s1|s1|s1] eqn:E; [|done|done].
  intros H Hl. destruct (on_char_keeps_link c s s1 E Hl) as [Hl1 Hc1].
  destruct (IH s1 s' H Hl1) as [? ?]. split; congruence.
Qed.

(** X13. For input whose first part is plain ASCII it makes no difference
    whether the bytes arrive in one read or in two. *)
Theorem ascii_input_may_be_split
    (s : t) (d1 d2 : list N)
    (Hascii : Forall (λ b, (b < 128)%N) d1)
    (Hopen : Channel.closed (channel s) = false) :
  interact [mk_round (Some d1) None; mk_round (Some d2) None] s
  = interact [mk_round (Some (d1 ++ d2)) None] s.
Proof.
  cbn [interact incoming link].
  set (s0 := mk (shell s) (commands s) (buffer s) _).
  rewrite decode_ascii by done. rewrite for_chars_app.
  rewrite (decode_ascii_only d1) by done.
  destruct (for_chars d1 s0) as [s1|s1|s1] eqn:E; [| |done].
  - destruct (for_chars_keeps_link d1 s0 s1 E eq_refl) as [Hl Hc].
    cbn [s0 channel Channel.closed] in Hc.
    unfold Channel.active at 1. rewrite Hl, Hc, Hopen. cbn [negb andb].
    destruct s1 as [sh1 c1 b1 [sent1 cl1 l1]]. cbn in Hl, Hc. subst.
    cbn [shell commands buffer channel Channel.sent Channel.closed].
    by rewrite Hopen.
  - pose proof (for_chars_advanced d1 s0) as H. rewrite E in H.
    destruct H as (_ & _ & _ & Hc & _). cbn [flow_state] in Hc.
    unfold Channel.active. by rewrite Hc.
Qed.

Lemma ascii_input_may_be_split_witness :
  interact [mk_round (Some (lit "who")) None; mk_round (Some (lit "ami" ++ [13%N])) None]
    (mk (FakeShell.init (lit "root")) [] [] (Channel.mk [] false None))
  = interact [mk_round (Some (lit "who" ++ lit "ami" ++ [13%N])) None]
      (mk (FakeShell.init (lit "root")) [] [] (Channel.mk [] false None)).
Proof.
  apply ascii_input_may_be_split; [|done].
  repeat constructor.
Defined.

(** X14. A two-byte character whose bytes arrive in different reads is
    lost: neither read buffers or echoes anything, while the two bytes
    read together give one character. *)
Theorem split_character_is_lost
    (sh : FakeShell.t) (cmds : list str) (b : str) (sent : list str) (b0 b1 : N)
    (Hlead : (194 ≤ b0 < 224)%N) (Hcont : (128 ≤ b1 < 192)%N) :
  let s := mk sh cmds b (Channel.mk sent false None) in
  let c := ((b0 - 192) * 64 + (b1 - 128))%N in
  interact [mk_round (Some [b0]) None; mk_round (Some [b1]) None] s = Pending s
  ∧ interact [mk_round (Some [b0; b1]) None] s
    = Pending (mk sh cmds (b ++ [c]) (Channel.mk (sent ++ [[c]]) false None))
  ∧ (128 ≤ c < 2048)%N.
Proof.
  intros s c.
  assert (H0 : (b0 <? 128)%N = false) by (apply N.ltb_ge; lia).
  assert (H1 : (b0 <? 194)%N = false) by (apply N.ltb_ge; lia).
  assert (H2 : (b0 <? 224)%N = true) by (apply N.ltb_lt; lia).
  assert (H3 : (b1 <? 128)%N = false) by (apply N.ltb_ge; lia).
  assert (H4 : (b1 <? 194)%N = true) by (apply N.ltb_lt; lia).
  assert (H5 : is_continuation b1 = true).
  { unfold is_continuation. apply andb_true_iff. split; apply N.leb_le; lia. }
  assert (Hc : (128 ≤ c < 2048)%N) by (unfold c; lia).
  split; [|split; [|done]].
  - cbn [interact incoming link decode_utf8_ignore].
    rewrite H0, H1, H2, H3, H4. by cbn.
  - cbn [interact incoming link decode_utf8_ignore].
    rewrite H0, H1, H2, H5. fold c. cbn [for_chars].
    assert (Hne : c ≠ CR ∧ c ≠ LF ∧ c ≠ DEL ∧ c ≠ ETX).
    { unfold CR, LF, DEL, ETX. repeat split; lia. }
    destruct Hne as (? & ? & ? & ?).
    cbn [s shell commands buffer channel Channel.sent Channel.closed].
    by rewrite on_char_other.
Qed.

Lemma split_character_is_lost_witness :
  interact [mk_round (Some [195%N]) None; mk_round (Some [169%N]) None]
    (mk (FakeShell.init (lit "root")) [] [] (Channel.mk [] false None))
  = Pending (mk (FakeShell.init (lit "root")) [] [] (Channel.mk [] false None)).
Proof.
  refine (proj1 (split_character_is_lost (FakeShell.init (lit "root")) [] [] []
                   195%N 169%N _ _)); lia.
Defined.
End SessionMore.

Section DecoderMore.

Ltac test_byte :=
  match goal with
  | |- context [(?a <? ?b)%N] =>
      let E := fresh "E" in
      destruct (a <? b)%N eqn:E;
      [apply N.ltb_lt in E|apply N.ltb_ge in E]
  | |- context [(?a =? ?b)%N] =>
      let E := fresh "E" in
      destruct (a =? b)%N eqn:E;
      [apply N.eqb_eq in E|apply N.eqb_neq in E]
  | |- context [is_continuation ?b] =>
      let E := fresh "E" in
      destruct (is_continuation b) eqn:E;
      [unfold is_continuation in E; apply andb_true_iff in E as [?%N.leb_le ?%N.leb_le]|]
  end.

Lemma decode_sound n : ∀ data,
  (length data ≤ n)%nat →
  Forall scalar_value (decode_utf8_ignore data)
  ∧ (length (decode_utf8_ignore data) ≤ length data)%nat.
Proof.
  induction n as [n IH] using lt_wf_ind. intros data Hn.
  assert (Hrec : ∀ r, (length r < length data)%nat →
            Forall scalar_value (decode_utf8_ignore r)
            ∧ (length (decode_utf8_ignore r) ≤ length r)%nat).
  { intros r Hr. destruct n as [|n]; [lia|]. apply (IH n); lia. }
  clear IH Hn.
  assert (Hskip : ∀ r, (length r < length data)%nat →
            Forall scalar_value (decode_utf8_ignore r)
            ∧ (length (decode_utf8_ignore r) ≤ length data)%nat).
  { intros r Hr. destruct (Hrec r Hr). split; [done|lia]. }
  assert (Hcons : ∀ c r, scalar_value c → (length r < length data)%nat →
            Forall scalar_value (c :: decode_utf8_ignore r)
            ∧ (length (c :: decode_utf8_ignore r) ≤ length data)%nat).
  { intros c r Hc Hr. destruct (Hrec r Hr). split; [by constructor|]. simpl. lia. }
  destruct data as [|b0 r0]; [by split|].
  cbn [decode_utf8_ignore].
  repeat first
    [ test_byte
    | match goal with
      | |- context [match ?r with [] => _ | _ :: _ => _ end] =>
          is_var r; destruct r
      end
    | progress cbn [negb orb] ];
    try (by split; [constructor|simpl; lia]);
    try (apply Hskip; simpl; lia);
    try (apply Hcons; [unfold scalar_value; lia|simpl; lia]).
Qed.

(** X15. What the decoder yields is always a Unicode scalar value, never a
    surrogate or a value beyond U+10FFFF, and never more characters than
    there were bytes; bytes below 0x80 come out unchanged. *)
Theorem decoder_yields_scalar_values (data ascii : list N) :
  Forall scalar_value (decode_utf8_ignore data)
  ∧ (length (decode_utf8_ignore data) ≤ length data)%nat
  ∧ decode_utf8_ignore (List.filter (λ b, b <? 128)%N ascii)
    = List.filter (λ b, b <? 128)%N ascii.
Proof.
  destruct (decode_sound (length data) data (le_n _)) as [H1 H2].
  split; [done|]. split; [done|].
  apply decode_ascii_only. apply Forall_forall. intros b Hb.
  apply list_elem_of_In, List.filter_In in Hb as [_ Hb]. by apply N.ltb_lt.
Qed.

End DecoderMore.

Section LimiterMore.
Import RateLimiter.

(** What a call leaves in the caller's window. *)
Lemma do_call_window rl c :
  window (do_call rl c) (call_ip c)
  = match c with
    | Attempt ip now =>
        if max_requests rl <=? Z.of_nat (length (prune rl ip now))
        then prune rl ip now else prune rl ip now ++ [now]
    | Snapshot ip now => prune rl ip now
    end.
Proof.
  destruct c as [ip now|ip now]; cbn [do_call call_ip].
  - pose proof (is_rate_limited_unfold rl ip now) as H. cbn zeta in H.
    by destruct (_ <=? _); destruct H.
  - rewrite get_stats_unfold. cbn [snd]. apply window_set_window.
Qed.

Lemma do_call_frame rl c ip :
  call_ip c ≠ ip → window (do_call rl c) ip = window rl ip.
Proof.
  destruct c as [ip' now|ip' now]; cbn [do_call call_ip]; intros Hne.
  - by apply is_rate_limited_frame.
  - rewrite get_stats_unfold. cbn [snd]. by apply window_set_window_ne.
Qed.

Lemma do_call_params rl c :
  max_requests (do_call rl c) = max_requests rl
  ∧ window_seconds (do_call rl c) = window_seconds rl.
Proof.
  destruct c as [ip now|ip now]; cbn [do_call].
  - apply is_rate_limited_params.
  - by rewrite get_stats_unfold.
Qed.

Lemma run_calls_cons rl c calls :
  run_calls rl (c :: calls) = run_calls (do_call rl c) calls.
Proof. reflexivity. Qed.

Lemma run_calls_params calls : ∀ rl,
  max_requests (run_calls rl calls) = max_requests rl
  ∧ window_seconds (run_calls rl calls) = window_seconds rl.
Proof.
  induction calls as [|c calls IH]; intros rl; [done|].
  rewrite run_calls_cons. destruct (IH (do_call rl c)) as [-> ->].
  apply do_call_params.
Qed.

Lemma filter_length_le {A} (f : A → bool) l : (length (List.filter f l) ≤ length l)%nat.
Proof. induction l as [|a l IH]; simpl; [done|]. destruct (f a); simpl; lia. Qed.

Lemma do_call_bound rl c ip :
  Z.of_nat (length (window (do_call rl c) ip))
  ≤ Z.max (max_requests rl) (Z.of_nat (length (window rl ip))).
Proof.
  destruct (decide (call_ip c = ip)) as [<-|Hne].
  - rewrite do_call_window.
    assert (Hp : ∀ now, (length (prune rl (call_ip c) now)
                         ≤ length (window rl (call_ip c)))%nat)
      by (intros; apply filter_length_le).
    destruct c as [ip now|ip now]; cbn [call_ip] in *.
    + specialize (Hp now).
      destruct (max_requests rl <=? _) eqn:E.
      * lia.
      * apply Z.leb_gt in E. rewrite length_app. simpl. lia.
    + specialize (Hp now). lia.
  - rewrite do_call_frame by done. lia.
Qed.

(** X16. A window never grows beyond the capacity: after any run of calls
    it holds at most [max_requests] entries, or as many as it held before
    the run if that was more. *)
Theorem window_never_exceeds_capacity
    (rl : t) (calls : list call) (ip : str) :
  Z.of_nat (length (window (run_calls rl calls) ip))
  ≤ Z.max (max_requests rl) (Z.of_nat (length (window rl ip)))
  ∧ Z.of_nat (length (window (run_calls (init (max_requests rl) (window_seconds rl))
                                calls) ip))
    ≤ Z.max (max_requests rl) 0.
Proof.
  assert (H : ∀ calls rl,
    Z.of_nat (length (window (run_calls rl calls) ip))
    ≤ Z.max (max_requests rl) (Z.of_nat (length (window rl ip)))).
  { clear. intros calls. induction calls as [|c calls IH]; intros rl.
    - cbn. lia.
    - rewrite run_calls_cons. etrans; [apply IH|].
      destruct (do_call_params rl c) as [-> _].
      pose proof (do_call_bound rl c ip). lia. }
  split; [apply H|]. etrans; [apply H|]. by cbn.
Qed.

Lemma do_call_dom rl c :
  dom (requests (do_call rl c)) = {[call_ip c]} ∪ dom (requests rl).
Proof.
  destruct c as [ip now|ip now]; cbn [do_call call_ip].
  - unfold is_rate_limited. destruct (_ <=? _); cbn; apply dom_insert_L.
  - rewrite get_stats_unfold. cbn. apply dom_insert_L.
Qed.

(** X17. The table never forgets a caller: after a run of calls its keys
    are the keys it had and every identity that called, snapshots
    included. *)
Theorem callers_are_never_forgotten (rl : t) (calls : list call) :
  dom (requests (run_calls rl calls))
  = dom (requests rl) ∪ list_to_set (List.map call_ip calls).
Proof.
  revert rl. induction calls as [|c calls IH]; intros rl.
  - cbn. set_solver.
  - rewrite run_calls_cons, IH, do_call_dom. cbn [List.map list_to_set]. set_solver.
Qed.

Lemma do_call_same_window rl1 rl2 c :
  max_requests rl1 = max_requests rl2 →
  window_seconds rl1 = window_seconds rl2 →
  window rl1 (call_ip c) = window rl2 (call_ip c) →
  window (do_call rl1 c) (call_ip c) = window (do_call rl2 c) (call_ip c).
Proof.
  intros Hm Hs Hw. rewrite !do_call_window.
  destruct c as [ip now|ip now]; cbn [call_ip] in Hw; unfold prune, cutoff;
    by rewrite ?Hm, ?Hs, ?Hw.
Qed.

Lemma run_calls_isolated ip calls : ∀ rl1 rl2,
  max_requests rl1 = max_requests rl2 →
  window_seconds rl1 = window_seconds rl2 →
  window rl1 ip = window rl2 ip →
  window (run_calls rl1 calls) ip
  = window (run_calls rl2
              (List.filter (λ c, bool_decide (call_ip c = ip)) calls)) ip.
Proof.
  induction calls as [|c calls IH]; intros rl1 rl2 Hm Hs Hw; [done|].
  rewrite run_calls_cons. cbn [List.filter].
  destruct (do_call_params rl1 c) as [Hm1 Hs1].
  destruct (bool_decide (call_ip c = ip)) eqn:E.
  - apply bool_decide_eq_true in E. subst ip. rewrite run_calls_cons.
    destruct (do_call_params rl2 c) as [Hm2 Hs2].
    apply IH; [congruence|congruence|]. by apply do_call_same_window.
  - apply bool_decide_eq_false in E.
    apply IH; [congruence|congruence|]. by rewrite do_call_frame.
Qed.

(** X18. Callers do not affect one another: the window of an identity
    after a run of calls is what the calls of that identity alone would
    have left. *)
Theorem identities_are_isolated (rl : t) (calls : list call) (ip : str) :
  window (run_calls rl calls) ip
  = window (run_calls rl (List.filter (λ c, bool_decide (call_ip c = ip)) calls)) ip.
Proof. by apply run_calls_isolated. Qed.

Lemma Sorted_filter (f : Z → bool) l : Sorted Z.le l → Sorted Z.le (List.filter f l).
Proof.
  intros H. apply StronglySorted_Sorted.
  apply Sorted_StronglySorted in H; [|intros x y z; lia].
  induction H as [|a l Hl IH Ha]; simpl; [constructor|].
  destruct (f a); [|done]. constructor; [done|].
  apply Forall_forall. intros x Hx. apply list_elem_of_In, List.filter_In in Hx as [Hx _].
  rewrite List.Forall_forall in Ha. by apply Ha.
Qed.

Lemma Sorted_snoc l x :
  Sorted Z.le l → (∀ y, In y l → y ≤ x) → Sorted Z.le (l ++ [x]).
Proof.
  intros H Hx. induction H as [|a l Hl IH Ha]; simpl.
  { repeat constructor. }
  constructor.
  - apply IH. intros y Hy. apply Hx. by right.
  - destruct l as [|b l]; simpl.
    + constructor. apply Hx. by left.
    + constructor. by inversion Ha.
Qed.

Lemma do_call_in_order hi rl c :
  in_order hi rl → hi ≤ call_time c → in_order (call_time c) (do_call rl c).
Proof.
  intros Hin Hc ip. destruct (Hin ip) as [Hs Hb].
  destruct (decide (call_ip c = ip)) as [<-|Hne].
  - rewrite do_call_window.
    assert (Hp : ∀ now, Sorted Z.le (prune rl (call_ip c) now)
                        ∧ ∀ x, In x (prune rl (call_ip c) now) → x ≤ hi).
    { intros now. split; [by apply Sorted_filter|].
      intros x Hx. apply List.filter_In in Hx as [Hx _]. by apply Hb. }
    destruct c as [ip now|ip now]; cbn [call_ip call_time] in *;
      destruct (Hp now) as [Hps Hpb].
    + destruct (_ <=? _).
      * split; [done|]. intros x Hx. specialize (Hpb x Hx). lia.
      * split.
        -- apply Sorted_snoc; [done|]. intros y Hy. specialize (Hpb y Hy). lia.
        -- intros x Hx. apply List.in_app_iff in Hx as [Hx|[<-|[]]]; [|lia].
           specialize (Hpb x Hx). lia.
    + split; [done|]. intros x Hx. specialize (Hpb x Hx). lia.
  - rewrite do_call_frame by done. split; [done|].
    intros x Hx. specialize (Hb x Hx). lia.
Qed.

Lemma run_calls_in_order calls : ∀ hi rl,
  in_order hi rl →
  Sorted Z.le (hi :: List.map call_time calls) →
  ∃ hi', in_order hi' (run_calls rl calls).
Proof.
  induction calls as [|c calls IH]; intros hi rl Hin Hs; [by exists hi|].
  rewrite run_calls_cons. cbn [List.map] in Hs.
  inversion Hs as [|? ? Hs' Hhd]; subst. inversion Hhd; subst.
  apply (IH (call_time c)); [|done]. by apply (do_call_in_order hi).
Qed.

(** X19. When the clock never goes back, every window stays in time order,
    so the prune drops the oldest entries first. *)
Theorem windows_stay_in_time_order
    (max_requests window_seconds : Z) (calls : list call) (ip : str)
    (Hclock : Sorted Z.le (List.map call_time calls)) :
  Sorted Z.le (window (run_calls (init max_requests window_seconds) calls) ip).
Proof.
  destruct calls as [|c calls]; [constructor|].
  destruct (run_calls_in_order (c :: calls) (call_time c)
              (init max_requests window_seconds)) as [hi H].
  - intros ip'. split; [constructor|]. intros x [].
  - cbn [List.map]. constructor; [done|]. constructor. lia.
  - apply H.
Qed.

Lemma windows_stay_in_time_order_witness :
  Sorted Z.le
    (window (run_calls (init 2 60)
               [Attempt (lit "a") 5; Snapshot (lit "a") 7; Attempt (lit "a") 9])
       (lit "a")).
Proof.
  apply windows_stay_in_time_order. cbn. repeat constructor; lia.
Defined.

(** X20. The login route reads the statistics first and asks for admission
    next.  When the clock has not gone back in between, a refusal implies
    that the statistics already showed the limit as reached, and when
    both calls fall in the same instant the two answers agree. *)
Theorem stats_then_attempt_agree
    (rl : t) (ip : str) (now1 now2 : Z) (Hclock : now1 ≤ now2) :
  let stats := fst (get_stats rl ip now1) in
  let limited := fst (is_rate_limited (snd (get_stats rl ip now1)) ip now2) in
  request_count stats = Z.of_nat (length (prune rl ip now1))
  ∧ (limited = true → stats_is_rate_limited stats = true)
  ∧ (now1 = now2 → limited = stats_is_rate_limited stats).
Proof.
  intros stats limited. unfold stats, limited. rewrite get_stats_unfold.
  cbn [fst snd request_count stats_is_rate_limited].
  set (rl1 := set_window rl ip (prune rl ip now1)).
  assert (Hk : prune rl1 ip now2
               = List.filter (λ t, cutoff rl now2 <? t) (prune rl ip now1)).
  { unfold prune at 1. unfold rl1. by rewrite window_set_window. }
  unfold is_rate_limited. change (max_requests rl1) with (max_requests rl).
  rewrite Hk. split; [done|]. split.
  - destruct (max_requests rl <=? Z.of_nat (length (List.filter _ _))) eqn:E;
      [|done]. intros _. apply Z.leb_le in E. apply Z.leb_le.
    pose proof (filter_length_le (λ t, cutoff rl now2 <? t) (prune rl ip now1)).
    lia.
  - intros <-. unfold prune. rewrite filter_idem.
    by destruct (max_requests rl <=? _).
Qed.

Lemma stats_then_attempt_agree_witness :
  fst (is_rate_limited (snd (get_stats (init 20 60) (lit "a") 5)) (lit "a") 5)
  = stats_is_rate_limited (fst (get_stats (init 20 60) (lit "a") 5)).
Proof.
  refine (proj2 (proj2 (stats_then_attempt_agree (init 20 60) (lit "a") 5 5 _)) _);
    [lia|done].
Defined.
End LimiterMore.

Section DetectorMore.
Import AttackDetector.

Variable unicode_tolower : char → char.
Variable unicode_isalnum : char → bool.
Variable unicode_lower_ucs4 : str → nat → char → str.

Abbreviation search := (Re.search unicode_tolower unicode_isalnum).
Abbreviation detect := (AttackDetector.detect unicode_tolower unicode_isalnum).
Abbreviation found := (pattern_found unicode_tolower unicode_isalnum).

Lemma search_compiles pattern text :
  is_Some (Re.compile pattern) → search pattern text = Some (found pattern text).
Proof.
  unfold pattern_found, Re.search. intros [r ->]. done.
Qed.

Lemma detect_filter label patterns text :
  Forall (λ p, is_Some (Re.compile p)) patterns →
  detect label patterns text
  = Some (List.map (rule_name label) (List.filter (λ p, found p text) patterns)).
Proof.
  induction 1 as [|p ps Hp _ IH]; [done|].
  cbn [AttackDetector.detect List.filter]. rewrite search_compiles by done.
  cbn [mbind option_bind]. rewrite IH. cbn [mbind option_bind].
  by destruct (found p text).
Qed.

Lemma tables_compile :
  Forall (λ p, is_Some (Re.compile p)) SQL_PATTERNS
  ∧ Forall (λ p, is_Some (Re.compile p)) XSS_PATTERNS
  ∧ Forall (λ p, is_Some (Re.compile p)) PATH_TRAVERSAL_PATTERNS
  ∧ Forall (λ p, is_Some (Re.compile p)) COMMAND_INJECTION_PATTERNS.
Proof.
  repeat split; apply Forall_forall; intros p Hp; apply list_elem_of_In in Hp;
    vm_compute in Hp;
    repeat (destruct Hp as [<-|Hp]; [by vm_compute; eexists|]); destruct Hp.
Qed.

Lemma filter_map_sublist {A B} (f : A → B) (g : A → bool) l :
  sublist (List.map f (List.filter g l)) (List.map f l).
Proof.
  induction l as [|a l IH]; simpl; [constructor|].
  destruct (g a); simpl; by constructor.
Qed.

(** The four detections behind an analysis. *)
Lemma analyze_payload_unfold text :
  let sql := List.map (rule_name (lit "SQL_INJECTION"))
               (List.filter (λ p, found p (Re.lower unicode_lower_ucs4 text))
                  SQL_PATTERNS) in
  let xss := List.map (rule_name (lit "XSS"))
               (List.filter (λ p, found p (Re.lower unicode_lower_ucs4 text))
                  XSS_PATTERNS) in
  let path := List.map (rule_name (lit "PATH_TRAVERSAL"))
                (List.filter (λ p, found p text) PATH_TRAVERSAL_PATTERNS) in
  let cmd := List.map (rule_name (lit "COMMAND_INJECTION"))
               (List.filter (λ p, found p text) COMMAND_INJECTION_PATTERNS) in
  analyze_payload unicode_tolower unicode_isalnum unicode_lower_ucs4 text
  = Some (if sql ++ xss ++ path ++ cmd is [] then mk_analysis false [] []
          else mk_analysis true
                 ((if sql is [] then [] else [lit "SQL_INJECTION"])
                  ++ (if xss is [] then [] else [lit "XSS"])
                  ++ (if path is [] then [] else [lit "PATH_TRAVERSAL"])
                  ++ (if cmd is [] then [] else [lit "COMMAND_INJECTION"]))
                 (sql ++ xss ++ path ++ cmd)).
Proof.
  destruct tables_compile as (H1 & H2 & H3 & H4).
  intros sql xss path cmd.
  assert (E1 : detect_sql_injection unicode_tolower unicode_isalnum
                 unicode_lower_ucs4 text = Some sql)
    by exact (detect_filter _ _ _ H1).
  assert (E2 : detect_xss unicode_tolower unicode_isalnum
                 unicode_lower_ucs4 text = Some xss)
    by exact (detect_filter _ _ _ H2).
  assert (E3 : detect_path_traversal unicode_tolower unicode_isalnum text
               = Some path)
    by exact (detect_filter _ _ _ H3).
  assert (E4 : detect_command_injection unicode_tolower unicode_isalnum text
               = Some cmd)
    by exact (detect_filter _ _ _ H4).
  clearbody sql xss path cmd.
  unfold analyze_payload. rewrite E1, E2, E3, E4. reflexivity.
Qed.

Lemma assemble_coherent (sql xss path cmd : list str) :
  let a := if sql ++ xss ++ path ++ cmd is [] then mk_analysis false [] []
           else mk_analysis true
                  ((if sql is [] then [] else [lit "SQL_INJECTION"])
                   ++ (if xss is [] then [] else [lit "XSS"])
                   ++ (if path is [] then [] else [lit "PATH_TRAVERSAL"])
                   ++ (if cmd is [] then [] else [lit "COMMAND_INJECTION"]))
                  (sql ++ xss ++ path ++ cmd) in
  (is_malicious a = true ↔ patterns_detected a ≠ [])
  ∧ (is_malicious a = true ↔ attack_types a ≠ [])
  ∧ sublist (attack_types a)
      [lit "SQL_INJECTION"; lit "XSS"; lit "PATH_TRAVERSAL"; lit "COMMAND_INJECTION"]
  ∧ patterns_detected a = sql ++ xss ++ path ++ cmd.
Proof.
  generalize (lit "SQL_INJECTION") (lit "XSS") (lit "PATH_TRAVERSAL")
    (lit "COMMAND_INJECTION"). intros l1 l2 l3 l4.
  destruct sql as [|? ?], xss as [|? ?], path as [|? ?], cmd as [|? ?];
    cbn [app is_malicious attack_types patterns_detected];
    (split; [done|]); (split; [done|]); (split; [|done]);
    repeat first [ apply sublist_nil_l | apply sublist_skip | apply sublist_cons ].
Qed.

(** X21. Every text gets an analysis, no pattern of the tables failing
    to compile, and the analysis is coherent: it is malicious exactly
    when a pattern was detected and exactly when an attack type is
    listed; the attack types come in the fixed order of the four
    categories, and the detected patterns are rules of the tables in
    table order. *)
Theorem analysis_is_coherent (text : str) :
  ∃ a,
    analyze_payload unicode_tolower unicode_isalnum unicode_lower_ucs4 text = Some a
    ∧ (is_malicious a = true ↔ patterns_detected a ≠ [])
    ∧ (is_malicious a = true ↔ attack_types a ≠ [])
    ∧ sublist (attack_types a)
        [lit "SQL_INJECTION"; lit "XSS"; lit "PATH_TRAVERSAL"; lit "COMMAND_INJECTION"]
    ∧ sublist (patterns_detected a) all_rule_names.
Proof.
  pose proof (analyze_payload_unfold text) as H. cbv zeta in H.
  eexists. split; [exact H|].
  match type of H with
  | _ = Some (if ?sql ++ ?xss ++ ?path ++ ?cmd is [] then _ else _) =>
      destruct (assemble_coherent sql xss path cmd) as (H1 & H2 & H3 & H4);
      assert (Hsub : sublist (sql ++ xss ++ path ++ cmd) all_rule_names)
        by (unfold all_rule_names; repeat apply sublist_app;
            apply filter_map_sublist)
  end.
  cbv zeta in H1, H2, H3, H4. split; [exact H1|]. split; [exact H2|].
  split; [exact H3|]. rewrite H4. exact Hsub.
Qed.

Lemma search_from_suffix r s2 :
  (∀ pv, Re.ends unicode_tolower unicode_isalnum r (pv, s2) ≠ []) →
  ∀ s1 prev, Re.search_from unicode_tolower unicode_isalnum r prev (s1 ++ s2) = true.
Proof.
  intros H s1. induction s1 as [|x s1 IH]; intros prev.
  - specialize (H prev). destruct s2; cbn [app Re.search_from];
      by destruct (Re.ends _ _ r _).
  - cbn [app Re.search_from]. rewrite IH. by destruct (Re.ends _ _ r _).
Qed.

Lemma found_suffix pattern r s1 s2 :
  Re.compile pattern = Some r →
  (∀ pv, Re.ends unicode_tolower unicode_isalnum r (pv, s2) ≠ []) →
  found pattern (s1 ++ s2) = true.
Proof.
  intros Hc H. unfold pattern_found, Re.search. rewrite Hc. cbn [mbind option_bind].
  by apply search_from_suffix.
Qed.

Lemma concat_imap_ascii (g : nat → char → str) (mid : str) :
  (∀ i c, (c < 128)%N → g i c = [Re.ascii_lower c]) →
  Forall (λ c, (c < 128)%N) mid →
  List.concat (imap g mid) = List.map Re.ascii_lower mid.
Proof.
  intros Hg H. revert g Hg. induction H as [|c mid Hc _ IH]; intros g Hg; [done|].
  cbn [imap List.concat List.map]. rewrite Hg by done. cbn [app]. f_equal.
  apply IH. intros i c' Hc'. by apply Hg.
Qed.

(** Lower-casing leaves an ASCII stretch of the text in place, as its
    ASCII lower case. *)
Lemma lower_ascii_stretch pre mid post :
  Forall (λ c, (c < 128)%N) mid →
  ∃ A B, Re.lower unicode_lower_ucs4 (pre ++ mid ++ post)
         = A ++ List.map Re.ascii_lower mid ++ B.
Proof.
  intros H. unfold Re.lower. rewrite !imap_app, !List.concat_app.
  eexists _, _. f_equal. f_equal.
  apply concat_imap_ascii; [|done].
  intros i c Hc. cbn. apply N.ltb_lt in Hc. by rewrite Hc.
Qed.

Lemma assemble_flags (sql xss path cmd : list str) :
  let a := if sql ++ xss ++ path ++ cmd is [] then mk_analysis false [] []
           else mk_analysis true
                  ((if sql is [] then [] else [lit "SQL_INJECTION"])
                   ++ (if xss is [] then [] else [lit "XSS"])
                   ++ (if path is [] then [] else [lit "PATH_TRAVERSAL"])
                   ++ (if cmd is [] then [] else [lit "COMMAND_INJECTION"]))
                  (sql ++ xss ++ path ++ cmd) in
  (sql ≠ [] → is_malicious a = true ∧ In (lit "SQL_INJECTION") (attack_types a))
  ∧ (path ≠ [] → is_malicious a = true ∧ In (lit "PATH_TRAVERSAL") (attack_types a)).
Proof.
  generalize (lit "SQL_INJECTION") (lit "XSS") (lit "PATH_TRAVERSAL")
    (lit "COMMAND_INJECTION"). intros l1 l2 l3 l4.
  destruct sql as [|? ?], xss as [|? ?], path as [|? ?], cmd as [|? ?];
    cbn [app is_malicious attack_types patterns_detected In];
    split; intros H; try done; split; auto.
Qed.

(** X22. A text that holds [../] is always classified as path traversal. *)
Theorem dot_dot_slash_is_path_traversal (pre post : str) :
  ∃ a,
    analyze_payload unicode_tolower unicode_isalnum unicode_lower_ucs4
      (pre ++ lit "../" ++ post) = Some a
    ∧ is_malicious a = true
    ∧ In (lit "PATH_TRAVERSAL") (attack_types a).
Proof.
  pose proof (analyze_payload_unfold (pre ++ lit "../" ++ post)) as H.
  cbv zeta in H. eexists. split; [exact H|].
  match type of H with
  | _ = Some (if ?sql ++ ?xss ++ ?path ++ ?cmd is [] then _ else _) =>
      destruct (assemble_flags sql xss path cmd) as [_ Hp];
      assert (Hne : path ≠ [])
  end.
  { set (p := lit "(\.\.\/|\.\.\\)").
    assert (Hin : In p (List.filter (λ p, found p (pre ++ lit "../" ++ post))
                          PATH_TRAVERSAL_PATTERNS)).
    { apply List.filter_In. split; [by left|].
      destruct (Re.compile p) as [r|] eqn:E; [|by vm_compute in E].
      apply (found_suffix p r); [done|].
      vm_compute in E. injection E as <-. intros pv. by vm_compute. }
    intros Hnil. apply (List.in_map (rule_name (lit "PATH_TRAVERSAL"))) in Hin.
    by rewrite Hnil in Hin. }
  cbv zeta in Hp. by apply Hp.
Qed.

(** X23. A text that holds a hash sign, two dashes or slash-star is
    always classified as SQL injection, whatever else it holds. *)
Theorem comment_markers_are_sql_injection (pre post : str) :
  Forall (λ marker,
    ∃ a,
      analyze_payload unicode_tolower unicode_isalnum unicode_lower_ucs4
        (pre ++ marker ++ post) = Some a
      ∧ is_malicious a = true
      ∧ In (lit "SQL_INJECTION") (attack_types a))
    [lit "#"; lit "--"; lit "/*"].
Proof.
  assert (Hall : ∀ marker,
    Forall (λ c, (c < 128)%N) marker →
    List.map Re.ascii_lower marker = marker →
    (∀ r B pv, Re.compile (lit "(--|\#|\/\*)") = Some r →
               Re.ends unicode_tolower unicode_isalnum r (pv, marker ++ B) ≠ []) →
    ∃ a,
      analyze_payload unicode_tolower unicode_isalnum unicode_lower_ucs4
        (pre ++ marker ++ post) = Some a
      ∧ is_malicious a = true
      ∧ In (lit "SQL_INJECTION") (attack_types a)).
  { intros marker Hascii Hlow Hends.
    pose proof (analyze_payload_unfold (pre ++ marker ++ post)) as H.
    cbv zeta in H. eexists. split; [exact H|].
    match type of H with
    | _ = Some (if ?sql ++ ?xss ++ ?path ++ ?cmd is [] then _ else _) =>
        destruct (assemble_flags sql xss path cmd) as [Hs _];
        assert (Hne : sql ≠ [])
    end.
    { set (p := lit "(--|\#|\/\*)").
      destruct (lower_ascii_stretch pre marker post Hascii) as (A & B & Hlo).
      rewrite Hlow in Hlo.
      assert (Hin : In p (List.filter
                            (λ p, found p (Re.lower unicode_lower_ucs4
                                             (pre ++ marker ++ post)))
                            SQL_PATTERNS)).
      { apply List.filter_In. split; [by vm_compute; auto 20|].
        rewrite Hlo.
        destruct (Re.compile p) as [r|] eqn:E; [|by vm_compute in E].
        apply (found_suffix p r); [done|]. intros pv. by apply Hends. }
      intros Hnil. apply (List.in_map (rule_name (lit "SQL_INJECTION"))) in Hin.
      by rewrite Hnil in Hin. }
    cbv zeta in Hs. by apply Hs. }
  repeat constructor; apply Hall; try (by repeat constructor); try done;
    intros r B pv E; vm_compute in E; injection E as <-; by vm_compute.
Qed.
End DetectorMore.

Section ClientIpMore.
Import Http.

Lemma strip_word w : is_word w = true → strip w = w.
Proof.
  intros H. destruct (word_head_last w H) as [(a & Ha & Hsa) (c & Hc & Hsc)].
  unfold strip. rewrite (lstrip_head _ a) by done. by apply (rstrip_last _ c).
Qed.

Lemma split_on_head sep w : sep ∉ w → split_on sep w = [w].
Proof.
  induction w as [|a w IH]; intros H; [done|]. cbn [split_on].
  rewrite decide_False by set_solver. rewrite IH by set_solver. done.
Qed.

Lemma split_on_head_sep sep w t :
  sep ∉ w → hd [] (split_on sep (w ++ sep :: t)) = w.
Proof.
  induction w as [|a w IH]; intros H; cbn [app split_on].
  - by rewrite decide_True.
  - rewrite decide_False by set_solver.
    specialize (IH ltac:(set_solver)).
    destruct (split_on sep (w ++ sep :: t)); cbn in *; by subst.
Qed.

(** X24. The identity of a client is whatever stands before the first
    comma of the first [X-Forwarded-For] line of its request. *)
Theorem forwarded_header_decides_identity
    (w t : str) (others : list (str * str)) (peer : option str)
    (Hword : is_word w = true) (Hcomma : 44%N ∉ w) :
  get_client_ip (mk_request ((lit "x-forwarded-for", w) :: others) peer) = w
  ∧ get_client_ip
      (mk_request ((lit "x-forwarded-for", w ++ 44%N :: t) :: others) peer) = w
  ∧ get_client_ip
      (mk_request ((lit "x-forwarded-for", 44%N :: t) :: others) peer) = [].
Proof.
  assert (Hh : ∀ v, header (mk_request ((lit "x-forwarded-for", v) :: others) peer)
                      (lit "X-Forwarded-For") = Some v)
    by (intros v; by vm_compute).
  unfold get_client_ip. rewrite !Hh.
  destruct w as [|a w]; [done|]. cbn [app].
  split; [|split].
  - rewrite (split_on_head 44%N (a :: w)) by done. by apply strip_word.
  - change (a :: w ++ 44%N :: t) with ((a :: w) ++ 44%N :: t).
    rewrite (split_on_head_sep 44%N (a :: w)) by done. by apply strip_word.
  - done.
Qed.

Lemma forwarded_header_decides_identity_witness :
  get_client_ip
    (mk_request [(lit "x-forwarded-for", lit "198.51.100.7, 10.0.0.1");
                 (lit "x-real-ip", lit "10.0.0.1")] (Some (lit "10.0.0.1")))
  = lit "198.51.100.7".
Proof.
  refine (proj1 (proj2 (forwarded_header_decides_identity (lit "198.51.100.7")
            (lit " 10.0.0.1") [(lit "x-real-ip", lit "10.0.0.1")]
            (Some (lit "10.0.0.1")) eq_refl _))).
  vm_compute. intros H. repeat (apply elem_of_cons in H as [H|H]; [done|]).
  by apply elem_of_nil in H.
Defined.
End ClientIpMore.

Section HttpMore.
Import Http.

Variable unicode_tolower : char → char.
Variable unicode_isalnum : char → bool.
Variable unicode_lower_ucs4 : str → nat → char → str.
Variable md5_hexdigest : str → str.

Abbreviation run_logins :=
  (run_logins unicode_tolower unicode_isalnum unicode_lower_ucs4 md5_hexdigest).

Abbreviation analyze :=
  (AttackDetector.analyze_payload unicode_tolower unicode_isalnum unicode_lower_ucs4).
Abbreviation login_post :=
  (admin_login_post unicode_tolower unicode_isalnum unicode_lower_ucs4 md5_hexdigest).

Lemma analyze_total text : ∃ a, analyze text = Some a.
Proof.
  pose proof (analyze_payload_unfold unicode_tolower unicode_isalnum
                unicode_lower_ucs4 text) as H.
  cbv zeta in H. eexists. exact H.
Qed.

Lemma login_post_eq req username password now1 now2 rl events st rl1 limited rl2 ua pa :
  RateLimiter.get_stats rl (get_client_ip req) now1 = (st, rl1) →
  RateLimiter.is_rate_limited rl1 (get_client_ip req) now2 = (limited, rl2) →
  analyze username = Some ua → analyze password = Some pa →
  login_post req username password now1 now2 rl events
  = if limited : bool
    then (Rejected 429 (lit "Too many requests. Please try again later."), rl2,
          events ++ [RateLimitExceeded (get_client_ip req)
                       (default (lit "Unknown") (header req (lit "User-Agent"))) st])
    else (Rejected 401 (lit "Invalid username or password"), rl2,
          events ++ [LoginAttempt (get_client_ip req) username password
                       (default (lit "Unknown") (header req (lit "User-Agent")))
                       ua pa
                       (AttackDetector.is_malicious ua || AttackDetector.is_malicious pa)
                       st (md5_hexdigest (username ++ lit ":" ++ password))]).
Proof.
  intros E1 E2 Hu Hp. unfold admin_login_post. rewrite E1, E2.
  destruct limited; [reflexivity|]. rewrite Hu, Hp. reflexivity.
Qed.

(** X25. A login is never granted.  The answer is 429 exactly when
    [is_rate_limited] refuses and 401 otherwise; either way one event is
    written, and the event of a refused request holds no credentials. *)
Theorem login_is_never_granted
    (req : request) (username password : str) (now1 now2 : Z)
    (rl : RateLimiter.t) (events : list event) :
  ∃ ua pa,
    analyze username = Some ua ∧ analyze password = Some pa
    ∧ login_post req username password now1 now2 rl events
      = let ip := get_client_ip req in
        let user_agent := default (lit "Unknown") (header req (lit "User-Agent")) in
        let stats := fst (RateLimiter.get_stats rl ip now1) in
        let verdict :=
          RateLimiter.is_rate_limited (snd (RateLimiter.get_stats rl ip now1))
            ip now2 in
        if fst verdict
        then (Rejected 429 (lit "Too many requests. Please try again later."),
              snd verdict, events ++ [RateLimitExceeded ip user_agent stats])
        else (Rejected 401 (lit "Invalid username or password"), snd verdict,
              events
              ++ [LoginAttempt ip username password user_agent ua pa
                    (AttackDetector.is_malicious ua || AttackDetector.is_malicious pa)
                    stats (md5_hexdigest (username ++ lit ":" ++ password))]).
Proof.
  destruct (analyze_total username) as [ua Hu].
  destruct (analyze_total password) as [pa Hp].
  exists ua, pa. split; [exact Hu|]. split; [exact Hp|]. cbv zeta.
  destruct (RateLimiter.get_stats rl (get_client_ip req) now1) as [st rl1] eqn:E1.
  cbv [fst snd].
  destruct (RateLimiter.is_rate_limited rl1 (get_client_ip req) now2)
    as [limited rl2] eqn:E2.
  exact (login_post_eq _ _ _ _ _ _ _ _ _ _ _ _ _ E1 E2 Hu Hp).
Qed.

Lemma login_post_fresh req username password now1 now2 rl events :
  RateLimiter.window rl (get_client_ip req) = [] →
  0 < RateLimiter.max_requests rl →
  ∃ e rl',
    login_post req username password now1 now2 rl events
    = (Rejected 401 (lit "Invalid username or password"), rl', events ++ [e])
    ∧ RateLimiter.max_requests rl' = RateLimiter.max_requests rl
    ∧ ∀ ip, ip ≠ get_client_ip req →
            RateLimiter.window rl' ip = RateLimiter.window rl ip.
Proof.
  intros Hw Hcap. set (ip := get_client_ip req) in *.
  destruct (analyze_total username) as [ua Hu].
  destruct (analyze_total password) as [pa Hp].
  assert (E1 : RateLimiter.get_stats rl ip now1
               = (RateLimiter.mk_stats 0 (RateLimiter.max_requests rl)
                    (RateLimiter.window_seconds rl)
                    (RateLimiter.max_requests rl <=? 0),
                  RateLimiter.set_window rl ip [])).
  { rewrite get_stats_unfold. unfold RateLimiter.prune. by rewrite Hw. }
  set (rl1 := RateLimiter.set_window rl ip []) in *.
  assert (E2 : RateLimiter.is_rate_limited rl1 ip now2
               = (false, RateLimiter.set_window rl1 ip [now2])).
  { assert (Hw1 : RateLimiter.window rl1 ip = [])
      by (unfold rl1; apply window_set_window).
    unfold RateLimiter.is_rate_limited, RateLimiter.prune.
    rewrite Hw1. cbn [List.filter length app].
    change (RateLimiter.max_requests rl1) with (RateLimiter.max_requests rl).
    by rewrite (proj2 (Z.leb_gt _ _)) by lia. }
  eexists _, _. split.
  - exact (login_post_eq _ _ _ _ _ _ _ _ _ _ _ _ _ E1 E2 Hu Hp).
  - split; [done|]. intros ip' Hne. unfold rl1.
    by rewrite !window_set_window_ne by done.
Qed.

Lemma run_logins_fresh ls : ∀ rl,
  0 < RateLimiter.max_requests rl →
  NoDup (List.map (λ l, get_client_ip (login_request l)) ls) →
  (∀ l, In l ls → RateLimiter.window rl (get_client_ip (login_request l)) = []) →
  ∀ rs0 events,
  ∃ rl' added,
    foldl (λ '(rs, rl, events) l,
             let '(r, rl1, events1) :=
               login_post (login_request l) (login_username l) (login_password l)
                 (login_now1 l) (login_now2 l) rl events in
             (rs ++ [r], rl1, events1))
      (rs0, rl, events) ls
    = (rs0 ++ List.repeat (Rejected 401 (lit "Invalid username or password"))
                (length ls),
       rl', events ++ added)
    ∧ length added = length ls.
Proof.
  induction ls as [|l ls IH]; intros rl Hcap Hnd Hfresh rs0 events.
  { exists rl, []. by rewrite !app_nil_r. }
  cbn [List.map] in Hnd. apply NoDup_cons in Hnd as [Hnot Hnd].
  destruct (login_post_fresh (login_request l) (login_username l) (login_password l)
              (login_now1 l) (login_now2 l) rl events) as (e & rl1 & Heq & Hm & Hfr).
  { apply Hfresh. by left. }
  { done. }
  cbn [foldl]. rewrite Heq.
  destruct (IH rl1) with (rs0 := rs0 ++ [Rejected 401 (lit "Invalid username or password")])
                         (events := events ++ [e])
    as (rl' & added & Hrun & Hlen).
  - lia.
  - done.
  - intros l' Hl'. rewrite Hfr; [apply Hfresh; by right|].
    intros Heq'. apply Hnot. rewrite <- Heq'.
    apply list_elem_of_In. apply List.in_map_iff. by exists l'.
  - exists rl', (e :: added). rewrite Hrun. cbn [length List.repeat].
    rewrite <- !app_assoc. split; [done|]. by rewrite Hlen.
Qed.

(** X26. The limiter keys on a header the client writes itself: requests
    that each carry another identity are never limited, however many
    and however fast they come. *)
Theorem changing_identity_defeats_the_limiter
    (logins : list login)
    (Hdistinct : NoDup (List.map (λ l, get_client_ip (login_request l)) logins)) :
  ∃ rl' events,
    run_logins rate_limiter [] logins
    = (List.repeat (Rejected 401 (lit "Invalid username or password"))
         (length logins), rl', events)
    ∧ length events = length logins.
Proof.
  destruct (run_logins_fresh logins rate_limiter) with (rs0 := @nil response)
                                                     (events := @nil event)
    as (rl' & added & Hrun & Hlen); [done|done|done|].
  exists rl', added. by split.
Qed.

Abbreviation analyze_ua := (analyze_user_agent unicode_lower_ucs4).

Lemma contains_infix needle pre post :
  contains needle (pre ++ needle ++ post) = true.
Proof.
  induction pre as [|x pre IH]; cbn [app].
  - destruct (needle ++ post) eqn:E; cbn [contains]; rewrite <- ?E;
      by rewrite startswith_app.
  - cbn [contains]. rewrite IH. apply orb_true_r.
Qed.

(** X27. The verdict on a user agent and its reasons go together; a user
    agent shorter than ten characters is always suspicious, so is the
    placeholder used when the header is missing. *)
Theorem user_agent_verdict_has_reasons (user_agent : str) :
  let a := analyze_ua user_agent in
  raw a = user_agent
  ∧ (is_suspicious a = true ↔ indicators a ≠ [])
  ∧ (length (indicators a) ≤ 17)%nat
  ∧ (if (length user_agent <? 10)%nat
     then is_suspicious a = true
          ∧ list.last (indicators a) = Some (lit "Suspiciously short")
     else ¬ In (lit "Suspiciously short") (indicators a))
  ∧ is_suspicious (analyze_ua (lit "Unknown")) = true.
Proof.
  intros a. unfold a, analyze_user_agent.
  set (hits := List.filter _ suspicious_keywords).
  assert (Hlen : (length hits ≤ 16)%nat).
  { etrans; [apply filter_length_le|]. done. }
  assert (Hnot : ∀ k, lit "Contains '" ++ k ++ lit "'" ≠ lit "Suspiciously short").
  { intros k E. by vm_compute in E. }
  clearbody hits.
  split; [by destruct (_ <? _)%nat|]. split; [|split; [|split]].
  - destruct (_ <? _)%nat; cbn [is_suspicious indicators].
    + split; [|done]. intros _. by destruct (List.map _ hits).
    + by destruct hits.
  - destruct (_ <? _)%nat; cbn [indicators];
      rewrite ?length_app, length_map; simpl; lia.
  - destruct (_ <? _)%nat; cbn [is_suspicious indicators].
    + split; [done|]. by rewrite last_snoc.
    + intros Hin. apply List.in_map_iff in Hin as (k & Hk & _). by apply Hnot in Hk.
  - unfold analyze_user_agent.
    change (length (lit "Unknown") <? 10)%nat with true. done.
Qed.

(** X28. The name of a scanning tool is found wherever it stands in the
    user agent and however its letters are cased. *)
Theorem tool_names_are_found_in_any_case
    (keyword variant pre post : str)
    (Hkeyword : In keyword suspicious_keywords)
    (Hascii : Forall (λ c, (c < 128)%N) variant)
    (Hcase : List.map Re.ascii_lower variant = keyword) :
  let a := analyze_ua (pre ++ variant ++ post) in
  is_suspicious a = true
  ∧ In (lit "Contains '" ++ keyword ++ lit "'") (indicators a).
Proof.
  intros a. unfold a, analyze_user_agent.
  destruct (lower_ascii_stretch unicode_lower_ucs4 pre variant post Hascii)
    as (A & B & Hlo).
  rewrite Hcase in Hlo.
  set (hits := List.filter _ suspicious_keywords).
  assert (Hin : In keyword hits).
  { apply List.filter_In. split; [done|]. rewrite Hlo. apply contains_infix. }
  clearbody hits.
  assert (Hin' : In (lit "Contains '" ++ keyword ++ lit "'")
                   (List.map (λ k, lit "Contains '" ++ k ++ lit "'") hits)).
  { apply List.in_map_iff. by exists keyword. }
  destruct (_ <? _)%nat; cbn [is_suspicious indicators].
  - split; [done|]. apply List.in_app_iff. by left.
  - split; [by destruct hits|done].
Qed.
End HttpMore.

Section HttpExamples.
Import Http.

(** The Unicode tables are consulted for characters outside ASCII only,
    and the digest is stored, never inspected: the examples take the
    tables that leave every such character alone, and a digest that
    returns its input. *)

Lemma changing_identity_defeats_the_limiter_witness :
  ∃ rl' events,
    run_logins (λ c, c) (λ _, false) (λ _ _ c, [c]) (λ s, s) rate_limiter []
      [mk_login (mk_request [(lit "x-forwarded-for", lit "192.0.2.1")] None)
         (lit "admin") (lit "admin") 0 0;
       mk_login (mk_request [(lit "x-forwarded-for", lit "192.0.2.2")] None)
         (lit "admin") (lit "123456") 0 0]
    = (List.repeat (Rejected 401 (lit "Invalid username or password")) 2,
       rl', events)
    ∧ length events = 2%nat.
Proof.
  apply (changing_identity_defeats_the_limiter (λ c, c) (λ _, false)
           (λ _ _ c, [c]) (λ s, s)
           [mk_login (mk_request [(lit "x-forwarded-for", lit "192.0.2.1")] None)
              (lit "admin") (lit "admin") 0 0;
            mk_login (mk_request [(lit "x-forwarded-for", lit "192.0.2.2")] None)
              (lit "admin") (lit "123456") 0 0]).
  apply (bool_decide_unpack _). by vm_compute.
Defined.

Lemma tool_names_are_found_in_any_case_witness :
  In (lit "Contains 'sqlmap'")
    (indicators (analyze_user_agent (λ _ _ c, [c])
                   (lit "Mozilla/5.0 " ++ lit "SQLMap" ++ lit "/1.7"))).
Proof.
  refine (proj2 (tool_names_are_found_in_any_case (λ _ _ c, [c])
                   (lit "sqlmap") (lit "SQLMap")
                   (lit "Mozilla/5.0 ") (lit "/1.7") _ _ _)).
  - by left.
  - repeat constructor.
  - done.
Defined.
End HttpExamples.
